(** * sapp_chat: rooms, participants and messages

    A shallow embedding of [models.py] of the chat application: the three
    record classes [Room], [Participant] and [Message], the tables the
    object-relational layer keeps for them, and the validation and lifecycle
    methods of each class.  Tables are lists of rows in insertion order,
    exceptions are values of an error monad, the clock is an explicit
    argument [now] counted in microseconds, and the dictionary returned by
    the statistics query is a finite map keyed by strings. *)

From stdpp Require Import base numbers list strings gmap fin_maps.

#[local] Set Warnings "-clear-no-such-hyp".
Local Open Scope Z_scope.

(** ** Exceptions and the error monad *)

Inductive exn : Type :=
  | ValidationError (msg : string)
  | IntegrityError (msg : string).

Inductive result (A : Type) : Type :=
  | Ok (a : A)
  | Raise (e : exn).

Arguments Ok {A} a.
Arguments Raise {A} e.

#[global] Instance result_ret : MRet result := λ A, @Ok A.

#[global] Instance result_bind : MBind result := λ A B k c,
  match c with
  | Ok a => k a
  | Raise e => Raise e
  end.

(** What a method hands back to its caller: a method without a [return]
    statement hands back [PyNone]. *)
Inductive pyval : Type :=
  | PyNone
  | PyInt (n : Z).

(** ** The clock *)

(** [datetime.timedelta(hours=n)], in microseconds. *)
Definition timedelta_hours (n : Z) : Z := n * 3600000000.

(** ** Records *)

Record User := mkUser {
  user_pk : Z;
  user_str : string (* what [str(user)] displays *)
}.

Record Room := mkRoom {
  room_pk : Z;
  room_created_by : User;
  room_creation_timestamp : Z;
  profile_picture : option string;
  name : option string;
  about : option string;
  max_participants : Z;
  admins_only : bool;
  erasable_messages : bool
}.

Record Participant := mkParticipant {
  participant_pk : Z;
  room : Room;
  user : User;
  is_admin : bool;
  date_joined : Z
}.

Record Message := mkMessage {
  message_pk : Z;
  message_creation_timestamp : Z;
  text : option string;
  disappering : bool;
  disappering_at : option Z;
  message : option Z; (* primary key of the message replied to *)
  participant : Participant
}.

(** The tables behind [Room.objects], [Participant.objects] and
    [Message.objects]. *)
Record Store := mkStore {
  Room_objects : list Room;
  Participant_objects : list Participant;
  Message_objects : list Message
}.

Definition empty_store : Store := mkStore [] [] [].

(** The next value of an auto-increment primary key. *)
Definition next_pk (pks : list Z) : Z := 1 + foldr Z.max 0 pks.

(** ** Python's truth value of the fields the methods test *)

(** [bool(s)] for a string field: [None] and the empty string are false. *)
Definition truthy_str (s : option string) : bool :=
  match s with
  | None => false
  | Some s => negb (String.eqb s "")
  end.

(** [bool(d)] for a date-time field: only [None] is false. *)
Definition truthy_datetime (d : option Z) : bool :=
  match d with
  | None => false
  | Some _ => true
  end.

(** [queryset == n]: the query-set class defines no [__eq__] and neither side
    knows the other's type, so Python falls back on object identity, and a
    query set is never the same object as an integer. *)
Definition queryset_eq_int {A : Type} (qs : list A) (n : Z) : bool := false.

(** ** Query sets *)

(** [qs.exists()] and [qs.count()]. *)
Definition queryset_exists {A : Type} (qs : list A) : bool :=
  match qs with
  | [] => false
  | _ :: _ => true
  end.

Definition queryset_count {A : Type} (qs : list A) : Z := Z.of_nat (length qs).

(** [Participant.objects.create(room=r, user=u, is_admin=adm)]: the row gets
    a fresh primary key and [date_joined = now] ([auto_now_add]); the table
    rejects a second row for the same [(room, user)] ([unique_together]). *)
Definition Participant_objects_create (now : Z) (db : Store) (r : Room)
    (u : User) (adm : bool) : result (Store * Participant) :=
  if existsb
       (λ p, (room_pk (room p) =? room_pk r) && (user_pk (user p) =? user_pk u))
       (Participant_objects db)
  then Raise (IntegrityError "UNIQUE constraint failed: room, user")
  else
    let p := mkParticipant (next_pk (participant_pk <$> Participant_objects db))
               r u adm now in
    Ok (mkStore (Room_objects db) (Participant_objects db ++ [p])
          (Message_objects db), p).

(** *** Deletion of a query set of messages

    [qs.delete()] first collects what has to go: the rows of the query set
    and, because the reply-to reference [message] is declared
    [on_delete=CASCADE], the rows that refer to a collected row, and so on
    until a round brings nothing new.  [seen] holds the primary keys
    collected so far and [objs] the rows the current round looks at. *)

Definition replies_to (ks : gset Z) (m : Message) : bool :=
  match message m with
  | Some k => bool_decide (k ∈ ks)
  | None => false
  end.

Fixpoint collect (fuel : nat) (tbl : list Message) (seen : gset Z)
    (objs : list Message) : gset Z :=
  let new_objs := filter (λ m, message_pk m ∉ seen) objs in
  match new_objs with
  | [] => seen
  | _ :: _ =>
      let new_pks : gset Z := list_to_set (message_pk <$> new_objs) in
      match fuel with
      | O => seen ∪ new_pks
      | S fuel' =>
          collect fuel' tbl (seen ∪ new_pks) (filter (λ m, replies_to new_pks m) tbl)
      end
  end.

(** One round can only stop early when it brings nothing new, and each round
    that goes on adds a key of the table, so as many rounds as the table has
    rows are enough. *)
Definition queryset_delete (tbl : list Message) (objs : list Message)
    : list Message :=
  let gone := collect (length tbl) tbl ∅ objs in
  filter (λ m, message_pk m ∉ gone) tbl.

(** ** Room *)

Module Room.

Definition messages (db : Store) (self : Room) : list Message :=
  filter (λ m, room_pk (room (participant m)) = room_pk self)
    (Message_objects db).

Definition participants (db : Store) (self : Room) : list Participant :=
  filter (λ p, room_pk (room p) = room_pk self) (Participant_objects db).

Definition is_group (self : Room) : bool := 2 <? max_participants self.

Definition validate_name (self : Room) : result unit :=
  if negb (truthy_str (name self)) && (2 <? max_participants self)
  then Raise (ValidationError "Group Rooms need a name!")
  else Ok tt.

(** [super().clean()] is the framework's empty hook. *)
Definition clean (self : Room) : result unit :=
  Ok tt ;; validate_name self.

Definition with_name (self : Room) (n : option string) : Room :=
  mkRoom (room_pk self) (room_created_by self) (room_creation_timestamp self)
    (profile_picture self) n (about self) (max_participants self)
    (admins_only self) (erasable_messages self).

Definition set_name (db : Store) (self : Room) : Room :=
  if queryset_eq_int (participants db self) 2 && negb (truthy_str (name self))
  then with_name self (Some (user_str (room_created_by self) +:+ " & ..."))
  else self.

Definition auto_join_room (now : Z) (db : Store) (self : Room) : result Store :=
  if negb (queryset_exists
             (filter (λ p, user_pk (user p) = user_pk (room_created_by self))
                (Participant_objects db)))
  then
    created ← Participant_objects_create now db self (room_created_by self) true;
    Ok created.1
  else Ok db.

(** [super().after_save()] is the framework's empty hook. *)
Definition after_save (now : Z) (db : Store) (self : Room) : result Store :=
  db' ← auto_join_room now db self;
  Ok db'.

(** Writing the row: a row with this primary key is replaced, otherwise
    the row is appended. *)
Definition persist (db : Store) (self : Room) : Store :=
  mkStore
    (if existsb (λ r, room_pk r =? room_pk self) (Room_objects db)
     then (λ r, if room_pk r =? room_pk self then self else r) <$> Room_objects db
     else Room_objects db ++ [self])
    (Participant_objects db) (Message_objects db).

(** Modelled from the spec: [save] only delegates to the [save] of the base
    class [SM], which is not under src/.  By sections 4.1 and 9 of the
    specification the base class validates with [clean], then persists the
    row, then runs the [after_save] hook. *)
Definition save (now : Z) (db : Store) (self : Room) : result Store :=
  clean self ;;
  after_save now (persist db self) self.

(** Modelled from the spec: the creation contract of section 4.1, a first
    [save] of a room that takes the next primary key of the table. *)
Definition create (now : Z) (db : Store) (creator : User)
    (n : option string) (maxp : Z) (adm_only : bool) : result (Store * Room) :=
  let self := mkRoom (next_pk (room_pk <$> Room_objects db)) creator now
                None n None maxp adm_only true in
  db' ← save now db self;
  Ok (db', self).

(** Modelled from the spec: the same [save] of the base class, together with
    the store the call leaves behind, also when it raises: an exception
    takes back nothing of what was written before it.  [clean] reads the
    instance only, so a failed validation leaves every table as it was; the
    row is written once [clean] has passed, and [after_save] runs on the
    store that holds the row. *)
Definition save_effect (now : Z) (db : Store) (self : Room)
    : Store * result unit :=
  match clean self with
  | Raise e => (db, Raise e)
  | Ok _ =>
      let db1 := persist db self in
      match after_save now db1 self with
      | Ok db2 => (db2, Ok tt)
      | Raise e => (db1, Raise e)
      end
  end.

(** Modelled from the spec: the creation contract of section 4.1, with the
    store it leaves behind. *)
Definition create_effect (now : Z) (db : Store) (creator : User)
    (n : option string) (maxp : Z) (adm_only : bool) : Store * result Room :=
  let self := mkRoom (next_pk (room_pk <$> Room_objects db)) creator now
                None n None maxp adm_only true in
  match save_effect now db self with
  | (db', Ok _) => (db', Ok self)
  | (db', Raise e) => (db', Raise e)
  end.

End Room.

(** ** Participant *)

Module Participant.

Definition messages (db : Store) (self : Participant) : list Message :=
  filter (λ m, participant_pk (participant m) = participant_pk self)
    (Message_objects db).

Definition validate_room_max_participants (db : Store) (self : Participant)
    : result unit :=
  if queryset_count (Room.participants db (room self))
       >=? max_participants (room self)
  then Raise (ValidationError "Room full!")
  else Ok tt.


End Participant.

(** ** Message *)

(** [t.strftime("%H:%M")] for a time [t] in microseconds. *)
Definition digit (d : Z) : Ascii.ascii := Ascii.ascii_of_nat (48 + Z.to_nat d).

Definition two_digits (n : Z) : string :=
  String (digit (n / 10)) (String (digit (n mod 10)) EmptyString).

Definition strftime_HM (t : Z) : string :=
  two_digits (t / 3600000000 mod 24) +:+ ":" +:+ two_digits (t / 60000000 mod 60).

Module Message.

Definition replies (db : Store) (self : Message) : list Message :=
  filter (λ m, message m = Some (message_pk self)) (Message_objects db).

Definition validate_admins_only (self : Message) : result unit :=
  if admins_only (room (participant self)) && negb (is_admin (participant self))
  then Raise (ValidationError "Only admins can post messages in this room.")
  else Ok tt.

Definition with_disappering_at (self : Message) (d : option Z) : Message :=
  mkMessage (message_pk self) (message_creation_timestamp self) (text self)
    (disappering self) d (message self) (participant self).

Definition with_disappering (self : Message) (b : bool) : Message :=
  mkMessage (message_pk self) (message_creation_timestamp self) (text self)
    b (disappering_at self) (message self) (participant self).

Definition set_disappearing_at (now : Z) (self : Message) : Message :=
  if disappering self && negb (truthy_datetime (disappering_at self))
  then with_disappering_at self (Some (now + timedelta_hours 1))
  else self.

(** Writing the row, as for rooms. *)
Definition persist (db : Store) (self : Message) : Store :=
  mkStore (Room_objects db) (Participant_objects db)
    (if existsb (λ m, message_pk m =? message_pk self) (Message_objects db)
     then (λ m, if message_pk m =? message_pk self then self else m)
            <$> Message_objects db
     else Message_objects db ++ [self]).

(** The instance is stamped, then [super().save()] writes it: the class
    overrides neither [clean] nor [after_save], so nothing else happens.
    The method hands back nothing, the caller keeps the stamped instance. *)
Definition save (now : Z) (db : Store) (self : Message) : Store * Message :=
  let self' := set_disappearing_at now self in
  (persist db self', self').

(** [disappering_at__lte = now]: a null column matches no comparison. *)
Definition disappering_at_lte (now : Z) (m : Message) : Prop :=
  match disappering_at m with
  | Some t => t ≤ now
  | None => False
  end.

#[global] Instance disappering_at_lte_dec now m :
  Decision (disappering_at_lte now m).
Proof. unfold disappering_at_lte. destruct (disappering_at m); apply _. Defined.

Definition delete_disappearing_messages (now : Z) (db : Store)
    : Store * pyval :=
  let tbl := Message_objects db in
  (mkStore (Room_objects db) (Participant_objects db)
     (queryset_delete tbl (filter (disappering_at_lte now) tbl)),
   PyNone).

(** The rows created in [[a, b)]. *)
Definition created_between (a b : Z) (db : Store) : list Message :=
  filter (λ m, a ≤ message_creation_timestamp m ∧ message_creation_timestamp m < b)
    (Message_objects db).

Definition get_message_volume_stats (now : Z) (db : Store) : gmap string nat :=
  let ago := now - timedelta_hours 24 in
  foldl
    (λ data i,
       let period := ago + timedelta_hours i in
       <[strftime_HM period :=
           length (created_between period (period + timedelta_hours 1) db)]> data)
    ∅ (seqZ 0 24).

(** The request and the keyword arguments are ignored. *)
Definition get_message_volume_stats_api {Request Kwds : Type} (now : Z)
    (db : Store) (request : Request) (kwds : Kwds) : gmap string nat :=
  get_message_volume_stats now db.

End Message.

(** * Notions the properties are stated with *)

(** ** Rooms and participants *)

(** A group room whose name is empty or absent. *)
Definition nameless_group (n : option string) (maxp : Z) : Prop :=
  2 < maxp ∧ (n = None ∨ n = Some "").

(** The rows of a user, in any room: the query set the auto-join tests. *)
Definition memberships (db : Store) (u : User) : list Participant :=
  filter (λ p, user_pk (user p) = user_pk u) (Participant_objects db).

Definition add_participant (db : Store) (p : Participant) : Store :=
  mkStore (Room_objects db) (Participant_objects db ++ [p]) (Message_objects db).

(** Successive saves of one message, at the given times. *)
Definition save_all (times : list Z) (db : Store) (m : Message)
    : Store * Message :=
  foldl (λ st t, Message.save t st.1 st.2) (db, m) times.

(** The table after a row is written: [Message.persist] writes
    [upsert_row self] of the table of messages. *)
Definition replace_row (m : Message) (tbl : list Message) : list Message :=
  (λ m', if message_pk m' =? message_pk m then m else m') <$> tbl.

Definition upsert_row (m : Message) (tbl : list Message) : list Message :=
  if existsb (λ m', message_pk m' =? message_pk m) tbl
  then replace_row m tbl
  else tbl ++ [m].

(** ** The statistics loop *)

(** [sum(data.values())]. *)
Definition sum_values (data : gmap string nat) : nat :=
  map_fold (λ _ v acc, (v + acc)%nat) 0%nat data.

(** The start of bucket [i] and the number of messages created in it. *)
Definition bucket_start (now : Z) (i : Z) : Z :=
  now - timedelta_hours 24 + timedelta_hours i.

Definition bucket_count (now : Z) (db : Store) (i : Z) : nat :=
  length (Message.created_between (bucket_start now i)
            (bucket_start now i + timedelta_hours 1) db).

(** The dictionary after the first [n] rounds of the loop. *)
Definition stats_upto (now : Z) (db : Store) (n : nat) : gmap string nat :=
  foldl
    (λ data i, <[strftime_HM (bucket_start now i) := bucket_count now db i]> data)
    ∅ (seqZ 0 (Z.of_nat n)).

(** ** Deletion *)

(** The keys that have to go: the key of a selected row, and the key of a
    row that replies to a key that has to go. *)
Inductive doomed (tbl : list Message) (P : Message → Prop) : Z → Prop :=
  | doomed_selected m :
      m ∈ tbl → P m → doomed tbl P (message_pk m)
  | doomed_reply m k :
      m ∈ tbl → message m = Some k → doomed tbl P k →
      doomed tbl P (message_pk m).

Definition pks (l : list Message) : gset Z := list_to_set (message_pk <$> l).

(** The keys the sweep removes at [now]: an expired message, and a message
    that replies to one that is removed. *)
Definition swept (now : Z) (db : Store) : Z → Prop :=
  doomed (Message_objects db) (Message.disappering_at_lte now).

(** The store with the [disappering] flag of every message set anew, to
    what [f] says, and nothing else changed. *)
Definition reflag (f : Message → bool) (db : Store) : Store :=
  mkStore (Room_objects db) (Participant_objects db)
    ((λ m, Message.with_disappering m (f m)) <$> Message_objects db).

(** Every flag turned over. *)
Definition negb_flag (m : Message) : bool := negb (disappering m).

(** ** Sample stores *)

(** A room with exactly two participants and an empty name, created by
    alice and joined by bob. *)
Definition alice : User := mkUser 1 "alice".
Definition bob : User := mkUser 2 "bob".
Definition direct_room : Room := mkRoom 1 alice 0 None (Some "") None 2 false true.
Definition direct_store : Store :=
  mkStore [direct_room]
    [mkParticipant 1 direct_room alice true 0;
     mkParticipant 2 direct_room bob false 1]
    [].

(** A group room of capacity five whose only participant is alice. *)
Definition group_room : Room :=
  mkRoom 2 alice 0 None (Some "friends") None 5 false true.
Definition group_store : Store :=
  mkStore [group_room] [mkParticipant 1 group_room alice true 0] [].

(** A thread of two messages: the first expired at 10, the second, without
    any [disappering_at], replies to it. *)
Definition thread_store : Store :=
  let p := mkParticipant 1 group_room alice true 0 in
  mkStore [group_room] [p]
    [mkMessage 1 5 (Some "see you at noon") true (Some 10) None p;
     mkMessage 2 7 (Some "ok") false None (Some 1) p].

(** ** Contact *)

Record Contact := mkContact {
  contact_pk : Z;
  owner : User;
  person : User
}.

(** [Contact.objects.create(owner=o, person=p)]: a fresh primary key, and the
    table rejects a second row for the same [(owner, person)]
    ([unique_together]). *)
Definition Contact_objects_create (tbl : list Contact) (o p : User)
    : result (list Contact * Contact) :=
  if existsb
       (λ c, (user_pk (owner c) =? user_pk o) && (user_pk (person c) =? user_pk p))
       tbl
  then Raise (IntegrityError "UNIQUE constraint failed: owner, person")
  else
    let c := mkContact (next_pk (contact_pk <$> tbl)) o p in
    Ok (tbl ++ [c], c).

(** The pairs a table of participants and a table of contacts hold. *)
Definition participant_pairs (db : Store) : list (Z * Z) :=
  (λ p, (room_pk (room p), user_pk (user p))) <$> Participant_objects db.

Definition contact_pairs (tbl : list Contact) : list (Z * Z) :=
  (λ c, (user_pk (owner c), user_pk (person c))) <$> tbl.

(** Three messages that are no replies: the first without the flag and
    expired at 10, the second with the flag and due at 100, the third with
    the flag and without any [disappering_at]. *)
Definition flag_store : Store :=
  let p := mkParticipant 1 group_room alice true 0 in
  mkStore [group_room] [p]
    [mkMessage 1 5 (Some "old news") false (Some 10) None p;
     mkMessage 2 6 (Some "for an hour") true (Some 100) None p;
     mkMessage 3 7 (Some "not stamped yet") true None None p].

(** * Properties *)

(** ** Query sets that select nothing *)

Lemma filter_none {A} (P : A → Prop) `{!∀ x, Decision (P x)} (l : list A) :
  (∀ x, x ∈ l → ¬ P x) → filter P l = [].
Proof.
  induction l as [|x l IH]; intros Hnone; [done|].
  rewrite filter_cons_False by (apply Hnone; left).
  apply IH. intros y Hy. apply Hnone. by right.
Qed.

(** ** Truth values *)

Lemma truthy_str_false (s : option string) :
  truthy_str s = false ↔ s = None ∨ s = Some "".
Proof.
  destruct s as [s|]; simpl.
  - rewrite negb_false_iff, String.eqb_eq. intuition congruence.
  - intuition congruence.
Qed.

Lemma truthy_datetime_false (d : option Z) :
  truthy_datetime d = false ↔ d = None.
Proof. destruct d; simpl; intuition congruence. Qed.

(** ** Room: the name of a group room *)

Section room_name.

Implicit Types (r : Room) (db : Store).

Lemma validate_name_raises r :
  Room.validate_name r = Raise (ValidationError "Group Rooms need a name!")
  ↔ nameless_group (name r) (max_participants r).
Proof.
  unfold Room.validate_name, nameless_group.
  rewrite <- truthy_str_false.
  destruct (truthy_str (name r)), (2 <? max_participants r) eqn:Hmax;
    simpl; (apply Z.ltb_lt in Hmax || apply Z.ltb_ge in Hmax);
    split; (done || (intros [? ?]; (done || lia))).
Qed.

Lemma validate_name_passes r :
  Room.validate_name r = Ok tt
  ↔ ¬ nameless_group (name r) (max_participants r).
Proof.
  rewrite <- validate_name_raises. unfold Room.validate_name.
  destruct (_ && _); intuition congruence.
Qed.

Lemma clean_validate_name r : Room.clean r = Room.validate_name r.
Proof. reflexivity. Qed.

Lemma save_clean_raises now db r e :
  Room.clean r = Raise e → Room.save now db r = Raise e.
Proof. unfold Room.save. intros ->. reflexivity. Qed.

End room_name.

(** ** Room: the display name of a two-party room *)

Lemma set_name_id (db : Store) (r : Room) : Room.set_name db r = r.
Proof. reflexivity. Qed.

(** C3.  On a room with exactly two participants and an empty name
    [set_name] does not assign the display name: the room comes back as it
    was, its name still empty. *)
Theorem set_name_two_participants :
  length (Room.participants direct_store direct_room) = 2%nat
  ∧ name direct_room = Some ""
  ∧ Room.set_name direct_store direct_room = direct_room
  ∧ name (Room.set_name direct_store direct_room) ≠ Some "alice & ...".
Proof. rewrite set_name_id. by repeat split. Qed.

(** ** Room: the creator joins the room *)

Section auto_join.

Implicit Types (r : Room) (db : Store) (u : User).

Lemma queryset_exists_false {A} (qs : list A) :
  queryset_exists qs = false ↔ qs = [].
Proof. by destruct qs. Qed.

Lemma create_fresh_pair now db r u adm :
  (∀ p, p ∈ Participant_objects db →
        ¬ (room_pk (room p) = room_pk r ∧ user_pk (user p) = user_pk u)) →
  let p := mkParticipant (next_pk (participant_pk <$> Participant_objects db))
             r u adm now in
  Participant_objects_create now db r u adm = Ok (add_participant db p, p).
Proof.
  intros Hfresh p. unfold Participant_objects_create.
  destruct (existsb _ _) eqn:Hex; [|done].
  apply existsb_exists in Hex as (q & Hq%list_elem_of_In & Hpair).
  apply andb_true_iff in Hpair as [?%Z.eqb_eq ?%Z.eqb_eq].
  by destruct (Hfresh q).
Qed.


Lemma participants_add db p r :
  Room.participants (add_participant db p) r
  = Room.participants db r
    ++ (if decide (room_pk (room p) = room_pk r) then [p] else []).
Proof.
  unfold Room.participants, add_participant. simpl.
  by rewrite filter_app.
Qed.

Lemma auto_join_room_fresh now db r :
  memberships db (room_created_by r) = [] →
  Room.auto_join_room now db r
  = Ok (add_participant db
          (mkParticipant (next_pk (participant_pk <$> Participant_objects db))
             r (room_created_by r) true now)).
Proof.
  intros Hnone. unfold Room.auto_join_room.
  fold (memberships db (room_created_by r)). rewrite Hnone. simpl.
  rewrite create_fresh_pair; [done|].
  intros p Hp [_ Hu].
  assert (p ∈ memberships db (room_created_by r)) as Hin
    by (by apply list_elem_of_filter).
  rewrite Hnone in Hin. by apply elem_of_nil in Hin.
Qed.

Lemma auto_join_room_member now db r :
  memberships db (room_created_by r) ≠ [] →
  Room.auto_join_room now db r = Ok db.
Proof.
  intros Hsome. unfold Room.auto_join_room.
  fold (memberships db (room_created_by r)).
  by destruct (memberships db (room_created_by r)).
Qed.

Lemma auto_join_room_again now now' db db' r :
  Room.auto_join_room now db r = Ok db' →
  Room.auto_join_room now' db' r = Ok db'.
Proof.
  destruct (decide (memberships db (room_created_by r) = [])) as [Hnone|Hsome].
  - rewrite auto_join_room_fresh by done. intros [= <-].
    apply auto_join_room_member. unfold memberships, add_participant. simpl.
    rewrite filter_app, filter_cons_True by done.
    intros Habs. by apply app_eq_nil in Habs as [_ ?].
  - rewrite auto_join_room_member by done. intros [= <-].
    by apply auto_join_room_member.
Qed.

End auto_join.

(** ** Room: the name is validated before the row is written *)

Section room_creation.

Implicit Types (r : Room) (db : Store).

Lemma save_effect_clean_raises now db r e :
  Room.clean r = Raise e → Room.save_effect now db r = (db, Raise e).
Proof. unfold Room.save_effect. by intros ->. Qed.

Lemma after_save_rooms now db r :
  ∃ db', Room.after_save now db r = Ok db' ∧ Room_objects db' = Room_objects db.
Proof.
  unfold Room.after_save.
  destruct (decide (memberships db (room_created_by r) = [])) as [Hnone|Hsome].
  - rewrite auto_join_room_fresh by done. by eexists.
  - rewrite auto_join_room_member by done. by eexists.
Qed.

Lemma save_effect_clean_passes now db r :
  Room.clean r = Ok tt →
  ∃ db', Room.save_effect now db r = (db', Ok tt)
         ∧ Room.save now db r = Ok db'
         ∧ Room_objects db' = Room_objects (Room.persist db r).
Proof.
  intros Hclean. unfold Room.save_effect, Room.save. rewrite Hclean. simpl.
  destruct (after_save_rooms now (Room.persist db r) r) as (db' & -> & Hrooms).
  by exists db'.
Qed.

(** The two views of [save] agree on what the caller gets. *)
Lemma save_effect_save now db r :
  Room.save now db r
  = match (Room.save_effect now db r).2 with
    | Ok _ => Ok (Room.save_effect now db r).1
    | Raise e => Raise e
    end.
Proof.
  destruct (Room.clean r) as [[]|e] eqn:Hclean.
  - destruct (save_effect_clean_passes now db r Hclean) as (db' & -> & -> & _).
    done.
  - rewrite (save_effect_clean_raises now db r e Hclean).
    by rewrite (save_clean_raises now db r e Hclean).
Qed.

Lemma persist_new_room db r :
  room_pk r = next_pk (room_pk <$> Room_objects db) →
  Room_objects (Room.persist db r) = Room_objects db ++ [r].
Proof.
  intros Hpk. unfold Room.persist. simpl.
  destruct (existsb _ _) eqn:Hex; [|done].
  apply existsb_exists in Hex as (r' & Hr'%list_elem_of_In & Heq%Z.eqb_eq).
  assert (∀ rooms : list Room,
            r' ∈ rooms → room_pk r' < next_pk (room_pk <$> rooms)) as Habove.
  { unfold next_pk. induction rooms as [|r0 rooms IH];
      [by intros ?%elem_of_nil|].
    rewrite fmap_cons. cbn [foldr].
    intros [->|Hin%IH]%elem_of_cons; lia. }
  specialize (Habove _ Hr'). lia.
Qed.

End room_creation.

(** C7.  A room that allows more than two participants and has an empty or
    absent name is rejected by [validate_name] with "Group Rooms need a
    name!", and only such a room is.  Creating such a room raises that
    error and leaves the store exactly as it was: the validation comes
    before the row is written, and no row and no participant is written.
    Creating any other room goes through and appends the row of the room.
    A group room with a non-empty name, and a room of at most two
    participants whatever its name, pass the validation. *)
Theorem room_name_validation (now : Z) (db : Store) (creator : User)
    (n : option string) (maxp : Z) (adm_only : bool) (r : Room) :
  (Room.validate_name r = Raise (ValidationError "Group Rooms need a name!")
   ↔ 2 < max_participants r ∧ (name r = None ∨ name r = Some ""))
  ∧ (2 < maxp ∧ (n = None ∨ n = Some "") →
     Room.create now db creator n maxp adm_only
     = Raise (ValidationError "Group Rooms need a name!")
     ∧ Room.create_effect now db creator n maxp adm_only
       = (db, Raise (ValidationError "Group Rooms need a name!")))
  ∧ (¬ (2 < maxp ∧ (n = None ∨ n = Some "")) →
     ∃ db' self,
       Room.create_effect now db creator n maxp adm_only = (db', Ok self)
       ∧ Room.create now db creator n maxp adm_only = Ok (db', self)
       ∧ name self = n ∧ max_participants self = maxp
       ∧ room_created_by self = creator
       ∧ Room_objects db' = Room_objects db ++ [self])
  ∧ (2 < max_participants r ∧ truthy_str (name r) = true →
     Room.validate_name r = Ok tt ∧ Room.clean r = Ok tt)
  ∧ (max_participants r ≤ 2 →
     Room.validate_name r = Ok tt ∧ Room.clean r = Ok tt).
Proof.
  split; [apply validate_name_raises|].
  split; [|split; [|split]].
  - intros Hng.
    assert (Room.clean
              (mkRoom (next_pk (room_pk <$> Room_objects db)) creator now
                 None n None maxp adm_only true)
            = Raise (ValidationError "Group Rooms need a name!")) as Hclean.
    { rewrite clean_validate_name. by apply validate_name_raises. }
    unfold Room.create, Room.create_effect.
    rewrite (save_clean_raises _ _ _ _ Hclean).
    by rewrite (save_effect_clean_raises _ _ _ _ Hclean).
  - intros Hnamed.
    assert (Room.clean
              (mkRoom (next_pk (room_pk <$> Room_objects db)) creator now
                 None n None maxp adm_only true)
            = Ok tt) as Hclean.
    { rewrite clean_validate_name. by apply validate_name_passes. }
    destruct (save_effect_clean_passes now db _ Hclean)
      as (db' & Heffect & Hsave & Hrooms).
    exists db', (mkRoom (next_pk (room_pk <$> Room_objects db)) creator now
                   None n None maxp adm_only true).
    unfold Room.create, Room.create_effect. rewrite Heffect, Hsave.
    repeat split. rewrite Hrooms. by apply persist_new_room.
  - intros [_ Hn].
    enough (Room.validate_name r = Ok tt) as H by (split; exact H).
    apply validate_name_passes. intros [_ Hf%truthy_str_false]. congruence.
  - intros Hle.
    enough (Room.validate_name r = Ok tt) as H by (split; exact H).
    apply validate_name_passes. intros [? _]. lia.
Qed.

Lemma room_name_validation_witness :
  Room.create_effect 0 group_store (mkUser 1 "alice") (Some "") 3 false
  = (group_store, Raise (ValidationError "Group Rooms need a name!"))
  ∧ (∃ db' self,
       Room.create_effect 0 empty_store (mkUser 1 "alice") (Some "friends") 3 false
       = (db', Ok self)
       ∧ Room_objects db' = [self])
  ∧ Room.validate_name
      (mkRoom 1 (mkUser 1 "alice") 0 None (Some "friends") None 3 false true)
    = Ok tt
  ∧ Room.validate_name
      (mkRoom 1 (mkUser 1 "alice") 0 None None None 2 false true)
    = Ok tt.
Proof.
  split; [|split; [|split]].
  - apply (proj1 (proj2
      (room_name_validation 0 group_store (mkUser 1 "alice") (Some "") 3 false
         (mkRoom 1 (mkUser 1 "alice") 0 None None None 2 false true)))).
    split; [lia | by right].
  - destruct (proj1 (proj2 (proj2
      (room_name_validation 0 empty_store (mkUser 1 "alice") (Some "friends") 3
         false (mkRoom 1 (mkUser 1 "alice") 0 None None None 2 false true)))))
      as (db' & self & Heffect & _ & _ & _ & _ & Hrooms).
    + intros [_ [[=]|[=]]].
    + by exists db', self.
  - apply (proj1 (proj2 (proj2 (proj2
      (room_name_validation 0 empty_store (mkUser 1 "alice") None 3 false
         (mkRoom 1 (mkUser 1 "alice") 0 None (Some "friends") None 3 false true)))))).
    split; [simpl; lia | reflexivity].
  - apply (proj2 (proj2 (proj2 (proj2
      (room_name_validation 0 empty_store (mkUser 1 "alice") None 3 false
         (mkRoom 1 (mkUser 1 "alice") 0 None None None 2 false true)))))).
    simpl; lia.
Defined.

(** C1.  The auto-join looks for a membership of the creator in any room,
    not in the room being created: alice creates a first room and is joined
    to it as admin, then creates a second room, and no Participant is
    inserted for the second room although she has none there. *)
Theorem auto_join_second_room :
  ∃ db1 first db2 second,
    Room.create 0 empty_store alice None 2 false = Ok (db1, first)
    ∧ Participant_objects db1 = [mkParticipant 1 first alice true 0]
    ∧ Room.create 1 db1 alice None 2 false = Ok (db2, second)
    ∧ room_pk second ≠ room_pk first
    ∧ Room.participants db1 second = []
    ∧ Room.auto_join_room 1 (Room.persist db1 second) second
      = Ok (Room.persist db1 second)
    ∧ Room.participants db2 second = []
    ∧ Participant_objects db2 = Participant_objects db1.
Proof. by repeat eexists. Qed.

(** C10.  When the creator has no membership yet, the auto-join inserts the
    creator's Participant whatever the capacity of the room: the capacity
    check, had it been made on this very row, would have raised "Room full!"
    as soon as the room's count had reached [max_participants], and it
    always would for [max_participants] of 0 or less, where the count after
    the insertion exceeds [max_participants]. *)
Theorem auto_join_ignores_capacity (now : Z) (db : Store) (r : Room) :
  memberships db (room_created_by r) = [] →
  ∃ p,
    Room.auto_join_room now db r = Ok (add_participant db p)
    ∧ room p = r ∧ user p = room_created_by r ∧ is_admin p = true
    ∧ queryset_count (Room.participants (add_participant db p) r)
      = queryset_count (Room.participants db r) + 1
    ∧ (max_participants r ≤ queryset_count (Room.participants db r) →
       Participant.validate_room_max_participants db p
       = Raise (ValidationError "Room full!")
       ∧ max_participants r
         < queryset_count (Room.participants (add_participant db p) r))
    ∧ (max_participants r ≤ 0 →
       Participant.validate_room_max_participants db p
       = Raise (ValidationError "Room full!")
       ∧ max_participants r
         < queryset_count (Room.participants (add_participant db p) r)).
Proof.
  intros Hnone. eexists. split; [by apply auto_join_room_fresh|].
  simpl. repeat (split; [done|]).
  assert (queryset_count (Room.participants (add_participant db
            (mkParticipant (next_pk (participant_pk <$> Participant_objects db))
               r (room_created_by r) true now)) r)
          = queryset_count (Room.participants db r) + 1) as Hcount.
  { rewrite participants_add. simpl. rewrite decide_True by done.
    unfold queryset_count. rewrite length_app. simpl. lia. }
  split; [done|].
  assert (∀ c, c = queryset_count (Room.participants db r) →
               max_participants r ≤ c →
               Participant.validate_room_max_participants db
                 (mkParticipant (next_pk (participant_pk <$> Participant_objects db))
                    r (room_created_by r) true now)
               = Raise (ValidationError "Room full!")
               ∧ max_participants r
                 < queryset_count (Room.participants (add_participant db
                     (mkParticipant (next_pk (participant_pk <$> Participant_objects db))
                        r (room_created_by r) true now)) r)) as Hfull.
  { intros c -> Hle. rewrite Hcount. split; [|lia].
    unfold Participant.validate_room_max_participants. simpl.
    destruct (Z.geb_spec (queryset_count (Room.participants db r))
                (max_participants r)); [done | lia]. }
  split; [by apply Hfull|].
  intros Hle. apply (Hfull _ eq_refl). unfold queryset_count. lia.
Qed.

Lemma auto_join_ignores_capacity_witness :
  let r := mkRoom 1 alice 0 None None None 0 false true in
  ∃ p,
    Room.auto_join_room 5 (mkStore [r] [] []) r
    = Ok (add_participant (mkStore [r] [] []) p)
    ∧ Participant.validate_room_max_participants (mkStore [r] [] []) p
      = Raise (ValidationError "Room full!")
    ∧ max_participants r
      < queryset_count (Room.participants (add_participant (mkStore [r] [] []) p) r).
Proof.
  intros r.
  destruct (auto_join_ignores_capacity 5 (mkStore [r] [] []) r eq_refl)
    as (p & Hjoin & _ & _ & _ & _ & _ & Hfull).
  exists p. split; [exact Hjoin|]. apply Hfull. simpl. lia.
Defined.

(** ** Participant: the capacity of a room *)

Section capacity.

Implicit Types (r : Room) (db : Store) (u : User) (self : Participant).

Lemma validate_room_max_participants_raises db self :
  Participant.validate_room_max_participants db self
  = Raise (ValidationError "Room full!")
  ↔ max_participants (room self)
    ≤ queryset_count (Room.participants db (room self)).
Proof.
  unfold Participant.validate_room_max_participants.
  destruct (Z.geb_spec (queryset_count (Room.participants db (room self)))
              (max_participants (room self))); split; (done || lia).
Qed.

Lemma validate_room_max_participants_passes db self :
  Participant.validate_room_max_participants db self = Ok tt
  ↔ queryset_count (Room.participants db (room self))
    < max_participants (room self).
Proof.
  unfold Participant.validate_room_max_participants.
  destruct (Z.geb_spec (queryset_count (Room.participants db (room self)))
              (max_participants (room self))); split; (done || lia).
Qed.


End capacity.




(** ** Message: the disappearing time is stamped once *)

Section disappearing_at.

Implicit Types (m : Message) (db : Store).

Lemma set_disappearing_at_stamps now m :
  disappering m = true → disappering_at m = None →
  disappering_at (Message.set_disappearing_at now m)
  = Some (now + timedelta_hours 1).
Proof. unfold Message.set_disappearing_at. by intros -> ->. Qed.

Lemma set_disappearing_at_keeps now m d :
  disappering_at m = Some d → Message.set_disappearing_at now m = m.
Proof.
  unfold Message.set_disappearing_at. intros ->.
  by rewrite andb_false_r.
Qed.

Lemma set_disappearing_at_off now m :
  disappering m = false → Message.set_disappearing_at now m = m.
Proof. unfold Message.set_disappearing_at. by intros ->. Qed.

Lemma save_all_keeps times db m d :
  disappering_at m = Some d → (save_all times db m).2 = m.
Proof.
  intros Hd. unfold save_all. revert db.
  induction times as [|t times IH]; intros db; [done|].
  simpl. unfold Message.save at 2. simpl.
  rewrite (set_disappearing_at_keeps t m d Hd). apply IH.
Qed.

Lemma persist_elem db m : m ∈ Message_objects (Message.persist db m).
Proof.
  unfold Message.persist. simpl.
  destruct (existsb _ _) eqn:Hex.
  - apply existsb_exists in Hex as (q & Hq%list_elem_of_In & Hpk).
    apply list_elem_of_fmap. exists q. by rewrite Hpk.
  - apply elem_of_app. right. apply list_elem_of_singleton. done.
Qed.

End disappearing_at.

(** C6.  A save of a message that is [disappering] and carries no
    [disappering_at] stamps it with the time of the save plus one hour, and
    the stamped instance is the row that is written.  A message that
    already carries a [disappering_at] keeps it through any number of later
    saves, and a message that is not [disappering] keeps whatever
    [disappering_at] it has. *)
Theorem disappearing_at_stamped_once (now : Z) (db : Store) (m : Message) :
  (disappering m = true → disappering_at m = None →
   disappering_at (Message.save now db m).2 = Some (now + 3600000000)
   ∧ ∀ later, disappering_at (save_all later (Message.save now db m).1
                                (Message.save now db m).2).2
              = Some (now + 3600000000))
  ∧ (∀ d later, disappering_at m = Some d →
       disappering_at (save_all later db m).2 = Some d)
  ∧ (disappering m = false →
     disappering_at (Message.save now db m).2 = disappering_at m)
  ∧ (Message.save now db m).2 ∈ Message_objects (Message.save now db m).1.
Proof.
  split; [|split; [|split]].
  - intros Hon Hnone.
    assert (disappering_at (Message.save now db m).2 = Some (now + 3600000000))
      as Hstamp by (simpl; by rewrite set_disappearing_at_stamps).
    split; [done|]. intros later.
    by rewrite (save_all_keeps later _ _ _ Hstamp).
  - intros d later Hd. by rewrite (save_all_keeps later db m d Hd).
  - intros Hoff. simpl. by rewrite set_disappearing_at_off.
  - apply persist_elem.
Qed.

Lemma disappearing_at_stamped_once_witness :
  let p := mkParticipant 1 group_room alice true 0 in
  disappering_at
    (Message.save 100 group_store (mkMessage 1 100 (Some "hi") true None None p)).2
  = Some 3600000100
  ∧ disappering_at
      (save_all [200; 300] group_store
         (mkMessage 1 100 (Some "hi") true (Some 3600000100) None p)).2
    = Some 3600000100
  ∧ disappering_at
      (Message.save 100 group_store (mkMessage 1 100 (Some "hi") false None None p)).2
    = None.
Proof.
  intros p. split; [|split].
  - by apply (proj1 (disappearing_at_stamped_once 100 group_store
                       (mkMessage 1 100 (Some "hi") true None None p))).
  - by apply (proj1 (proj2 (disappearing_at_stamped_once 100 group_store
                       (mkMessage 1 100 (Some "hi") true (Some 3600000100) None p)))).
  - by apply (proj1 (proj2 (proj2 (disappearing_at_stamped_once 100 group_store
                       (mkMessage 1 100 (Some "hi") false None None p))))).
Defined.

(** ** Message: who may post *)

(** C5.  [validate_admins_only] raises "Only admins can post messages in
    this room." exactly when the room of the posting participant has
    [admins_only] set and the participant is not an admin; an admin, and any
    participant of a room without [admins_only], passes. *)
Theorem validate_admins_only_spec (m : Message) :
  (Message.validate_admins_only m
   = Raise (ValidationError "Only admins can post messages in this room.")
   ↔ admins_only (room (participant m)) = true
     ∧ is_admin (participant m) = false)
  ∧ (is_admin (participant m) = true → Message.validate_admins_only m = Ok tt)
  ∧ (admins_only (room (participant m)) = false →
     Message.validate_admins_only m = Ok tt).
Proof.
  unfold Message.validate_admins_only.
  destruct (admins_only (room (participant m))), (is_admin (participant m));
    simpl; intuition congruence.
Qed.

Lemma validate_admins_only_spec_witness :
  let adm_room := mkRoom 1 (mkUser 1 "alice") 0 None (Some "news") None 9 true true in
  let open_room := mkRoom 2 (mkUser 1 "alice") 0 None (Some "chat") None 9 false true in
  let post p := mkMessage 1 0 (Some "hello") false None None p in
  Message.validate_admins_only (post (mkParticipant 1 adm_room (mkUser 1 "alice") true 0))
  = Ok tt
  ∧ Message.validate_admins_only (post (mkParticipant 2 open_room (mkUser 2 "bob") false 0))
    = Ok tt
  ∧ Message.validate_admins_only (post (mkParticipant 3 adm_room (mkUser 2 "bob") false 0))
    = Raise (ValidationError "Only admins can post messages in this room.").
Proof.
  intros adm_room open_room post. split; [|split].
  - by apply (proj1 (proj2 (validate_admins_only_spec
                (post (mkParticipant 1 adm_room (mkUser 1 "alice") true 0))))).
  - by apply (proj2 (proj2 (validate_admins_only_spec
                (post (mkParticipant 2 open_room (mkUser 2 "bob") false 0))))).
  - by apply (proj1 (validate_admins_only_spec
                (post (mkParticipant 3 adm_room (mkUser 2 "bob") false 0)))).
Defined.

(** ** Message: the hourly volume of the last day *)

Section strftime.

Lemma digit_inj (a b : Z) :
  0 ≤ a < 10 → 0 ≤ b < 10 → digit a = digit b → a = b.
Proof.
  intros Ha Hb Heq. apply (f_equal Ascii.nat_of_ascii) in Heq.
  unfold digit in Heq. rewrite !Ascii.nat_ascii_embedding in Heq by lia. lia.
Qed.

Lemma two_digits_inj (a b : Z) :
  0 ≤ a < 100 → 0 ≤ b < 100 → two_digits a = two_digits b → a = b.
Proof.
  intros Ha Hb [= Htens Hunits].
  apply digit_inj in Htens, Hunits;
    Z.to_euclidean_division_equations; lia.
Qed.

Lemma strftime_HM_hour (s t : Z) :
  strftime_HM s = strftime_HM t →
  s / 3600000000 mod 24 = t / 3600000000 mod 24.
Proof.
  unfold strftime_HM. intros [= Htens Hunits _].
  apply two_digits_inj; [| |unfold two_digits; congruence];
    Z.to_euclidean_division_equations; lia.
Qed.

(** The label is the zero-padded hour of the day, a colon and the
    zero-padded minute of the hour. *)
Lemma strftime_HM_shape (t : Z) :
  ∃ h mn, 0 ≤ h < 24 ∧ 0 ≤ mn < 60
          ∧ strftime_HM t = two_digits h +:+ ":" +:+ two_digits mn
          ∧ String.length (strftime_HM t) = 5%nat.
Proof.
  exists (t / 3600000000 mod 24), (t / 60000000 mod 60).
  split; [|split; [|done]]; Z.to_euclidean_division_equations; lia.
Qed.

End strftime.

Section volume_stats.

Variables (now : Z) (db : Store).

Lemma get_message_volume_stats_upto :
  Message.get_message_volume_stats now db = stats_upto now db 24.
Proof. reflexivity. Qed.

Lemma stats_upto_S (n : nat) :
  stats_upto now db (S n)
  = <[strftime_HM (bucket_start now (Z.of_nat n)) := bucket_count now db (Z.of_nat n)]>
      (stats_upto now db n).
Proof. unfold stats_upto. by rewrite seqZ_S, foldl_snoc, Z.add_0_l. Qed.

Lemma bucket_label_inj (i j : Z) :
  0 ≤ i < 24 → 0 ≤ j < 24 →
  strftime_HM (bucket_start now i) = strftime_HM (bucket_start now j) → i = j.
Proof.
  intros Hi Hj Heq%strftime_HM_hour.
  unfold bucket_start, timedelta_hours in Heq.
  Z.to_euclidean_division_equations. lia.
Qed.

Lemma stats_upto_fresh (n : nat) (j : Z) :
  Z.of_nat n ≤ j < 24 → stats_upto now db n !! strftime_HM (bucket_start now j) = None.
Proof.
  induction n as [|n IH]; intros Hj; [done|].
  rewrite stats_upto_S. apply lookup_insert_None. split; [apply IH; lia|].
  intros Heq%bucket_label_inj; lia.
Qed.

Lemma stats_upto_lookup (n : nat) (i : Z) :
  (n ≤ 24)%nat → 0 ≤ i < Z.of_nat n →
  stats_upto now db n !! strftime_HM (bucket_start now i) = Some (bucket_count now db i).
Proof.
  induction n as [|n IH]; intros Hn Hi; [lia|].
  rewrite stats_upto_S. apply lookup_insert_Some.
  destruct (decide (i = Z.of_nat n)) as [->|Hne]; [by left|].
  right. split; [|apply IH; lia].
  intros Heq%bucket_label_inj; lia.
Qed.

Lemma stats_upto_keys (n : nat) (k : string) :
  is_Some (stats_upto now db n !! k) →
  ∃ i, 0 ≤ i < Z.of_nat n ∧ k = strftime_HM (bucket_start now i).
Proof.
  induction n as [|n IH]; intros [v Hv]; [done|].
  rewrite stats_upto_S in Hv.
  apply lookup_insert_Some in Hv as [[<- _]|[_ Hv]].
  - exists (Z.of_nat n). split; [lia|done].
  - destruct IH as (i & ? & ?); [by exists v|]. exists i. split; [lia|done].
Qed.

Lemma stats_upto_size (n : nat) : (n ≤ 24)%nat → size (stats_upto now db n) = n.
Proof.
  induction n as [|n IH]; intros Hn; [done|].
  rewrite stats_upto_S, map_size_insert_None, IH; [done|lia|].
  apply stats_upto_fresh. lia.
Qed.

Lemma created_between_split (a b c : Z) :
  a ≤ b → b ≤ c →
  length (Message.created_between a c db)
  = (length (Message.created_between a b db)
     + length (Message.created_between b c db))%nat.
Proof.
  intros Hab Hbc. unfold Message.created_between.
  induction (Message_objects db) as [|m tbl IH]; [done|].
  rewrite !filter_cons.
  repeat destruct (decide _); simpl; rewrite IH; lia.
Qed.

Lemma stats_upto_sum (n : nat) :
  (n ≤ 24)%nat →
  sum_values (stats_upto now db n)
  = length (Message.created_between (bucket_start now 0)
              (bucket_start now (Z.of_nat n)) db).
Proof.
  induction n as [|n IH]; intros Hn.
  - unfold sum_values, stats_upto, Message.created_between.
    change (Z.of_nat 0) with 0. simpl.
    rewrite map_fold_empty. symmetry. apply length_zero_iff_nil.
    apply filter_none. intros m _ [? ?]. lia.
  - rewrite stats_upto_S. unfold sum_values.
    rewrite map_fold_insert_L; [|intros; lia|apply stats_upto_fresh; lia].
    fold (sum_values (stats_upto now db n)). rewrite IH by lia.
    rewrite (created_between_split (bucket_start now 0)
               (bucket_start now (Z.of_nat n)) (bucket_start now (Z.of_nat (S n))));
      [|unfold bucket_start, timedelta_hours; lia..].
    unfold bucket_count.
    replace (bucket_start now (Z.of_nat n) + timedelta_hours 1)
      with (bucket_start now (Z.of_nat (S n)))
      by (unfold bucket_start, timedelta_hours; lia).
    lia.
Qed.

End volume_stats.

(** C8.  [get_message_volume_stats] returns a dictionary of exactly 24
    entries, one for each of the 24 one-hour buckets that start 24 hours
    before [now]: bucket [i] is keyed by its start time formatted as
    zero-padded [HH:MM] and holds the number of messages whose
    [creation_timestamp] lies in the half-open hour from that start, and
    every key of the dictionary is such a label.  The 24 counts add up to
    the number of messages created in the 24 hours that end at [now]. *)
Theorem message_volume_stats (now : Z) (db : Store) :
  let data := Message.get_message_volume_stats now db in
  let ago := now - timedelta_hours 24 in
  size data = 24%nat
  ∧ (∀ i, 0 ≤ i < 24 →
       let period := ago + timedelta_hours i in
       data !! strftime_HM period
       = Some (length (filter
                 (λ m, period ≤ message_creation_timestamp m
                       ∧ message_creation_timestamp m < period + timedelta_hours 1)
                 (Message_objects db))))
  ∧ (∀ k, is_Some (data !! k) →
       ∃ i, 0 ≤ i < 24 ∧ k = strftime_HM (ago + timedelta_hours i))
  ∧ (∀ t, ∃ h mn, 0 ≤ h < 24 ∧ 0 ≤ mn < 60
       ∧ strftime_HM t = two_digits h +:+ ":" +:+ two_digits mn
       ∧ String.length (strftime_HM t) = 5%nat)
  ∧ sum_values data
    = length (filter
        (λ m, ago ≤ message_creation_timestamp m
              ∧ message_creation_timestamp m < now)
        (Message_objects db)).
Proof.
  intros data ago. unfold data. rewrite get_message_volume_stats_upto.
  split; [by apply stats_upto_size|].
  split; [intros i Hi; by apply stats_upto_lookup|].
  split; [apply stats_upto_keys|].
  split; [apply strftime_HM_shape|].
  rewrite stats_upto_sum by done.
  unfold Message.created_between, bucket_start, ago, timedelta_hours.
  f_equal. apply list_filter_iff. intros m. lia.
Qed.

Lemma message_volume_stats_witness :
  let p := mkParticipant 1 group_room alice true 0 in
  let db := mkStore [group_room] [p]
              [mkMessage 1 (timedelta_hours 3) None false None None p;
               mkMessage 2 (timedelta_hours 3 + 1) None false None None p;
               mkMessage 3 (timedelta_hours 30) None false None None p] in
  Message.get_message_volume_stats (timedelta_hours 24 + 300000000) db !! "02:05"
  = Some 2%nat.
Proof.
  intros p db.
  exact (proj1 (proj2 (message_volume_stats (timedelta_hours 24 + 300000000) db))
           2 ltac:(lia)).
Defined.

(** ** Message: what a deletion takes with it *)

Section cascade.

Variables (tbl : list Message) (P : Message → Prop).
Context `{!∀ m, Decision (P m)}.

Lemma elem_of_pks (l : list Message) (k : Z) :
  k ∈ pks l ↔ ∃ m, m ∈ l ∧ message_pk m = k.
Proof.
  unfold pks. rewrite elem_of_list_to_set, list_elem_of_fmap.
  split; intros (m & ? & ?); by exists m.
Qed.

Lemma size_pks (l : list Message) : (size (pks l) ≤ length l)%nat.
Proof.
  unfold pks. induction l as [|m l IH].
  - by rewrite fmap_nil, list_to_set_nil, size_empty.
  - rewrite fmap_cons, list_to_set_cons, size_union_alt, size_singleton. simpl.
    assert (size (list_to_set (message_pk <$> l) ∖ {[message_pk m]} : gset Z)
            ≤ size (list_to_set (message_pk <$> l) : gset Z))%nat as Hle
      by (apply subseteq_size; set_solver).
    lia.
Qed.

Lemma replies_to_true (ks : gset Z) (m : Message) :
  replies_to ks m ↔ ∃ k, message m = Some k ∧ k ∈ ks.
Proof.
  unfold replies_to. destruct (message m) as [k|].
  - rewrite bool_decide_spec. naive_solver.
  - naive_solver.
Qed.

(** One round of the collector, as an equation. *)
Lemma collect_unfold (fuel : nat) (seen : gset Z) (objs : list Message) :
  collect fuel tbl seen objs
  = let new_objs := filter (λ m, message_pk m ∉ seen) objs in
    match new_objs with
    | [] => seen
    | _ :: _ =>
        match fuel with
        | O => seen ∪ pks new_objs
        | S fuel' =>
            collect fuel' tbl (seen ∪ pks new_objs)
              (filter (λ m, replies_to (pks new_objs) m) tbl)
        end
    end.
Proof. by destruct fuel. Qed.

Lemma collect_seen (fuel : nat) (seen : gset Z) (objs : list Message) :
  seen ⊆ collect fuel tbl seen objs.
Proof.
  revert seen objs. induction fuel as [|fuel IH]; intros seen objs;
    rewrite collect_unfold; simpl;
    destruct (filter _ objs) as [|m new_objs]; try done; [set_solver|].
  etrans; [|apply IH]. set_solver.
Qed.

Lemma collect_objs (fuel : nat) (seen : gset Z) (objs : list Message) (m : Message) :
  m ∈ objs → message_pk m ∈ collect fuel tbl seen objs.
Proof.
  intros Hm. destruct (decide (message_pk m ∈ seen)) as [Hseen|Hnew].
  { by apply collect_seen. }
  assert (m ∈ filter (λ m, message_pk m ∉ seen) objs) as Hin
    by (by apply list_elem_of_filter).
  rewrite collect_unfold. simpl.
  destruct (filter _ objs) as [|m' new_objs] eqn:Hfilter;
    [by apply elem_of_nil in Hin|].
  assert (message_pk m ∈ seen ∪ pks (m' :: new_objs)) as Hpk.
  { apply elem_of_union_r, elem_of_pks. by exists m. }
  destruct fuel as [|fuel]; [done|]. by apply collect_seen.
Qed.

(** Whatever is collected had to go. *)
Lemma collect_sound (fuel : nat) (seen : gset Z) (objs : list Message) :
  (∀ k, k ∈ seen → doomed tbl P k) →
  (∀ m, m ∈ objs → doomed tbl P (message_pk m)) →
  ∀ k, k ∈ collect fuel tbl seen objs → doomed tbl P k.
Proof.
  revert seen objs. induction fuel as [|fuel IH]; intros seen objs Hseen Hobjs k;
    rewrite collect_unfold; simpl;
    destruct (filter _ objs) as [|m' new_objs] eqn:Hfilter; try by apply Hseen.
  - intros [Hk|(m & Hm & <-)%elem_of_pks]%elem_of_union; [by apply Hseen|].
    rewrite <- Hfilter in Hm. apply list_elem_of_filter in Hm as [_ Hm].
    by apply Hobjs.
  - assert (∀ k, k ∈ seen ∪ pks (m' :: new_objs) → doomed tbl P k) as Hseen'.
    { intros k' [Hk|(m & Hm & <-)%elem_of_pks]%elem_of_union; [by apply Hseen|].
      rewrite <- Hfilter in Hm. apply list_elem_of_filter in Hm as [_ Hm].
      by apply Hobjs. }
    apply IH; [done|].
    intros m [(k' & Hreply & Hk')%replies_to_true Hm]%list_elem_of_filter.
    eapply doomed_reply; [done..|]. apply Hseen'. by apply elem_of_union_r.
Qed.

(** With fuel for every key of the table that is not collected yet, the
    collector stops only once the replies of everything collected are
    collected too. *)
Lemma collect_closed (fuel : nat) (seen : gset Z) (objs : list Message) :
  (∀ m, m ∈ objs → m ∈ tbl) →
  (∀ m k, m ∈ tbl → message m = Some k → k ∈ seen →
          message_pk m ∈ seen ∨ m ∈ objs) →
  (size (pks tbl ∖ seen) ≤ fuel)%nat →
  ∀ m k, m ∈ tbl → message m = Some k →
         k ∈ collect fuel tbl seen objs →
         message_pk m ∈ collect fuel tbl seen objs.
Proof.
  revert seen objs.
  induction fuel as [|fuel IH]; intros seen objs Hsub Hinv Hfuel;
    rewrite collect_unfold; simpl;
    destruct (filter _ objs) as [|m' new_objs] eqn:Hfilter.
  - intros m k Hm Hreply Hk.
    destruct (Hinv m k Hm Hreply Hk) as [?|Hobj]; [done|].
    destruct (decide (message_pk m ∈ seen)) as [?|Hnew]; [done|].
    assert (m ∈ filter (λ m, message_pk m ∉ seen) objs) as Hin
      by (by apply list_elem_of_filter).
    rewrite Hfilter in Hin. by apply elem_of_nil in Hin.
  - assert (m' ∈ filter (λ m, message_pk m ∉ seen) objs) as Hin
      by (rewrite Hfilter; left).
    apply list_elem_of_filter in Hin as [Hnew Hobj].
    assert (message_pk m' ∈ pks tbl ∖ seen) as Hleft.
    { apply elem_of_difference. split; [|done].
      apply elem_of_pks. exists m'. split; [by apply Hsub|done]. }
    assert (size (pks tbl ∖ seen) = 0%nat) as Hzero by lia.
    apply size_empty_iff in Hzero. set_solver.
  - intros m k Hm Hreply Hk.
    destruct (Hinv m k Hm Hreply Hk) as [?|Hobj]; [done|].
    destruct (decide (message_pk m ∈ seen)) as [?|Hnew]; [done|].
    assert (m ∈ filter (λ m, message_pk m ∉ seen) objs) as Hin
      by (by apply list_elem_of_filter).
    rewrite Hfilter in Hin. by apply elem_of_nil in Hin.
  - assert (∀ m, m ∈ (m' :: new_objs) → (message_pk m ∉ seen) ∧ m ∈ objs) as Hnew.
    { intros m Hm. rewrite <- Hfilter in Hm. by apply list_elem_of_filter in Hm. }
    apply IH.
    + intros m Hm. by apply list_elem_of_filter in Hm as [_ ?].
    + intros m k Hm Hreply [Hk|Hk]%elem_of_union.
      * destruct (Hinv m k Hm Hreply Hk) as [?|Hobj];
          [left; by apply elem_of_union_l|].
        destruct (decide (message_pk m ∈ seen)) as [?|Hfresh];
          [left; by apply elem_of_union_l|].
        left. apply elem_of_union_r, elem_of_pks. exists m. split; [|done].
        rewrite <- Hfilter. by apply list_elem_of_filter.
      * right. apply list_elem_of_filter. split; [|done].
        apply replies_to_true. by exists k.
    + destruct (Hnew m') as [Hfresh Hobj]; [left|].
      assert (pks tbl ∖ (seen ∪ pks (m' :: new_objs)) ⊂ pks tbl ∖ seen) as Hless.
      { split; [set_solver|]. intros Hsup.
        assert (message_pk m' ∈ pks tbl ∖ (seen ∪ pks (m' :: new_objs))) as Habs.
        { apply Hsup, elem_of_difference. split; [|done].
          apply elem_of_pks. exists m'. split; [by apply Hsub|done]. }
        apply elem_of_difference in Habs as [_ Habs]. apply Habs.
        apply elem_of_union_r, elem_of_pks. exists m'. split; [left|done]. }
      apply subset_size in Hless. lia.
Qed.

(** What [queryset_delete] collects for the query set of the selected rows
    is exactly what has to go. *)
Lemma collect_doomed (k : Z) :
  k ∈ collect (length tbl) tbl ∅ (filter P tbl) ↔ doomed tbl P k.
Proof.
  split.
  - apply collect_sound; [set_solver|].
    intros m [? ?]%list_elem_of_filter. by apply doomed_selected.
  - induction 1 as [m Hm HP|m k' Hm Hreply _ IH].
    + apply collect_objs. by apply list_elem_of_filter.
    + eapply collect_closed; [..|exact Hm|exact Hreply|exact IH].
      * intros m0 Hm0. by apply list_elem_of_filter in Hm0 as [_ ?].
      * set_solver.
      * etrans; [|apply size_pks]. apply subseteq_size. set_solver.
Qed.

Lemma elem_of_queryset_delete (m : Message) :
  m ∈ queryset_delete tbl (filter P tbl)
  ↔ m ∈ tbl ∧ ¬ doomed tbl P (message_pk m).
Proof.
  unfold queryset_delete. rewrite list_elem_of_filter, collect_doomed. tauto.
Qed.

(** A deletion of an empty query set leaves the table as it is. *)
Lemma queryset_delete_nil : queryset_delete tbl [] = tbl.
Proof.
  unfold queryset_delete. rewrite collect_unfold. simpl.
  induction tbl as [|m l IH]; [done|].
  rewrite filter_cons_True by set_solver. f_equal. apply IH.
Qed.

End cascade.

(** ** Message: the sweep of expired messages *)

Section sweep.

Variables (now : Z) (db : Store).

Lemma sweep_returns_none :
  (Message.delete_disappearing_messages now db).2 = PyNone.
Proof. reflexivity. Qed.

Lemma sweep_other_tables :
  Room_objects (Message.delete_disappearing_messages now db).1 = Room_objects db
  ∧ Participant_objects (Message.delete_disappearing_messages now db).1
    = Participant_objects db.
Proof. by split. Qed.

Lemma elem_of_sweep (m : Message) :
  m ∈ Message_objects (Message.delete_disappearing_messages now db).1
  ↔ m ∈ Message_objects db ∧ ¬ swept now db (message_pk m).
Proof. apply elem_of_queryset_delete. Qed.

Lemma sweep_expired (m : Message) :
  m ∈ Message_objects db → Message.disappering_at_lte now m →
  m ∉ Message_objects (Message.delete_disappearing_messages now db).1.
Proof.
  intros Hm Hexp [_ Hkept]%elem_of_sweep. apply Hkept.
  by apply doomed_selected.
Qed.

Lemma sweep_removed (m : Message) :
  m ∈ Message_objects db →
  m ∉ Message_objects (Message.delete_disappearing_messages now db).1 →
  swept now db (message_pk m).
Proof.
  intros Hm Hgone. unfold swept. apply (proj1 (collect_doomed _ _ _)).
  destruct (decide (message_pk m
                    ∈ collect (length (Message_objects db)) (Message_objects db) ∅
                        (filter (Message.disappering_at_lte now) (Message_objects db))))
    as [Hin|Hout]; [done|].
  destruct Hgone. apply elem_of_sweep. split; [done|].
  intros Hswept. by apply (proj2 (collect_doomed _ _ _)) in Hswept.
Qed.

End sweep.

Lemma sweep_nothing_expired (now : Z) (db : Store) :
  (∀ m, m ∈ Message_objects db → ¬ Message.disappering_at_lte now m) →
  (Message.delete_disappearing_messages now db).1 = db.
Proof.
  intros Hnone. unfold Message.delete_disappearing_messages. simpl.
  rewrite (filter_none _ _ Hnone), queryset_delete_nil. by destruct db.
Qed.

(** C2, as stated, fails: at time 20 the sweep hands back nothing rather
    than the number of deleted messages, and besides the one expired message
    it deletes the reply to it, which has not expired. *)
Lemma sweep_returns_no_count_and_cascades :
  let p := mkParticipant 1 group_room alice true 0 in
  let reply := mkMessage 2 7 (Some "ok") false None (Some 1) p in
  (Message.delete_disappearing_messages 20 thread_store).2 = PyNone
  ∧ (Message.delete_disappearing_messages 20 thread_store).2 ≠ PyInt 1
  ∧ reply ∈ Message_objects thread_store
  ∧ ¬ Message.disappering_at_lte 20 reply
  ∧ Message_objects (Message.delete_disappearing_messages 20 thread_store).1 = [].
Proof.
  repeat split; [done| |by intros []].
  apply list_elem_of_In. right. by left.
Qed.

(** C2, amended.  The sweep hands back nothing.  In one bulk deletion it
    removes every message whose [disappering_at] is at or before [now]
    and, through the cascade on the reply-to reference, every message that
    replies to a removed one, and no other message: a message stays exactly
    when its key is not [swept].  Rooms and participants are untouched.  A
    sweep of a store in which no message has expired removes nothing, so a
    second sweep at the same time removes nothing. *)
Theorem sweep_spec (now : Z) (db : Store) :
  let db' := (Message.delete_disappearing_messages now db).1 in
  (Message.delete_disappearing_messages now db).2 = PyNone
  ∧ Room_objects db' = Room_objects db
  ∧ Participant_objects db' = Participant_objects db
  ∧ (∀ m, m ∈ Message_objects db → Message.disappering_at_lte now m →
          m ∉ Message_objects db')
  ∧ (∀ m k, m ∈ Message_objects db → message m = Some k →
            (∃ m', m' ∈ Message_objects db ∧ message_pk m' = k
                   ∧ m' ∉ Message_objects db') →
            m ∉ Message_objects db')
  ∧ (∀ m, m ∈ Message_objects db' ↔
          m ∈ Message_objects db ∧ ¬ swept now db (message_pk m))
  ∧ (∀ now', (∀ m, m ∈ Message_objects db' →
                   ¬ Message.disappering_at_lte now' m) →
             (Message.delete_disappearing_messages now' db').1 = db')
  ∧ (Message.delete_disappearing_messages now db').1 = db'.
Proof.
  intros db'.
  split; [apply sweep_returns_none|].
  split; [apply sweep_other_tables|].
  split; [apply sweep_other_tables|].
  split; [apply sweep_expired|].
  split.
  { intros m k Hm Hreply (m' & Hm' & <- & Hgone) [_ Hkept]%elem_of_sweep.
    apply Hkept. eapply doomed_reply; [done..|]. by apply sweep_removed. }
  split; [apply elem_of_sweep|].
  split; [intros now'; apply sweep_nothing_expired|].
  apply sweep_nothing_expired.
  intros m [Hm Hkept]%elem_of_sweep Hexp. apply Hkept.
  by apply doomed_selected.
Qed.

Lemma sweep_spec_witness :
  let p := mkParticipant 1 group_room alice true 0 in
  let first := mkMessage 1 5 (Some "see you at noon") true (Some 10) None p in
  let reply := mkMessage 2 7 (Some "ok") false None (Some 1) p in
  first ∉ Message_objects (Message.delete_disappearing_messages 20 thread_store).1
  ∧ reply ∉ Message_objects (Message.delete_disappearing_messages 20 thread_store).1
  ∧ (Message.delete_disappearing_messages 20
       (Message.delete_disappearing_messages 20 thread_store).1).1
    = (Message.delete_disappearing_messages 20 thread_store).1.
Proof.
  intros p first reply.
  destruct (sweep_spec 20 thread_store)
    as (_ & _ & _ & Hexpired & Hcascade & _ & _ & Hagain).
  assert (first ∈ Message_objects thread_store) as Hfirst by left.
  assert (first ∉ Message_objects
                    (Message.delete_disappearing_messages 20 thread_store).1)
    as Hgone by (apply Hexpired; [done | by vm_compute]).
  split; [done|]. split.
  - apply (Hcascade reply 1); [right; left | done |].
    exists first. by repeat split.
  - exact Hagain.
Defined.

(** *** The sweep looks at [disappering_at] only *)

(** The key of a swept message belongs to a row that has expired or that
    replies to a swept key. *)
Lemma swept_inv (now : Z) (db : Store) (k : Z) :
  swept now db k →
  ∃ m, m ∈ Message_objects db ∧ message_pk m = k
       ∧ (Message.disappering_at_lte now m
          ∨ ∃ k', message m = Some k' ∧ swept now db k').
Proof.
  destruct 1 as [m Hm Hexp|m k' Hm Hreply Hk'].
  - exists m. by eauto.
  - exists m. by eauto 6.
Qed.

Lemma swept_row_removed (now : Z) (db : Store) (k : Z) :
  swept now db k →
  ∃ m, m ∈ Message_objects db ∧ message_pk m = k
       ∧ m ∉ Message_objects (Message.delete_disappearing_messages now db).1.
Proof.
  intros Hk. destruct (swept_inv now db k Hk) as (m & Hm & <- & _).
  exists m. repeat split; [done|]. by intros [_ ?]%elem_of_sweep.
Qed.

(** Primary keys identify the rows of a table. *)
Lemma pk_unique (tbl : list Message) (m m' : Message) :
  NoDup (message_pk <$> tbl) → m ∈ tbl → m' ∈ tbl →
  message_pk m = message_pk m' → m = m'.
Proof.
  induction tbl as [|m0 tbl IH]; [by intros _ ?%elem_of_nil|].
  rewrite fmap_cons, NoDup_cons.
  intros [Hfresh Hnodup] [->|Hm]%elem_of_cons [->|Hm']%elem_of_cons Hpk;
    [done| | |by apply IH].
  - destruct Hfresh. rewrite Hpk. by apply list_elem_of_fmap_2.
  - destruct Hfresh. rewrite <- Hpk. by apply list_elem_of_fmap_2.
Qed.

(** C9, as stated, fails: the reply of [thread_store] has no
    [disappering_at], and the sweep at time 20 deletes it together with the
    expired message it replies to. *)
Lemma sweep_deletes_reply_without_disappering_at :
  let p := mkParticipant 1 group_room alice true 0 in
  let reply := mkMessage 2 7 (Some "ok") false None (Some 1) p in
  reply ∈ Message_objects thread_store
  ∧ disappering_at reply = None
  ∧ reply ∉ Message_objects (Message.delete_disappearing_messages 20 thread_store).1.
Proof.
  repeat split; [|by intros ?%elem_of_nil].
  apply list_elem_of_In. right. by left.
Qed.

Section sweep_flags.

Variables (now : Z) (f : Message → bool).

Implicit Types (tbl : list Message) (m : Message) (k : Z).

Lemma filter_fmap_on {A B} (g : A → B) (P : B → Prop) (Q : A → Prop)
    `{!∀ y, Decision (P y)} `{!∀ x, Decision (Q x)} (l : list A) :
  (∀ x, P (g x) ↔ Q x) → filter P (g <$> l) = g <$> filter Q l.
Proof.
  intros Hiff. induction l as [|x l IH]; [done|].
  rewrite fmap_cons, (filter_cons P), (filter_cons Q), IH.
  destruct (decide (P (g x))) as [HP|HP], (decide (Q x)) as [HQ|HQ];
    [done | by apply Hiff in HP | by apply Hiff in HQ | done].
Qed.

Lemma disappering_at_lte_reflag m :
  Message.disappering_at_lte now (Message.with_disappering m (f m))
  ↔ Message.disappering_at_lte now m.
Proof. reflexivity. Qed.

Lemma doomed_reflag tbl k :
  doomed ((λ m, Message.with_disappering m (f m)) <$> tbl)
    (Message.disappering_at_lte now) k
  ↔ doomed tbl (Message.disappering_at_lte now) k.
Proof.
  split.
  - induction 1 as [m' Hm' Hexp|m' k' Hm' Hreply _ IH];
      apply list_elem_of_fmap in Hm' as (m & -> & Hm).
    + by apply (doomed_selected tbl _ m).
    + by apply (doomed_reply tbl _ m k').
  - induction 1 as [m Hm Hexp|m k' Hm Hreply _ IH].
    + apply (doomed_selected _ _ (Message.with_disappering m (f m)));
        [|done]. apply list_elem_of_fmap. by exists m.
    + apply (doomed_reply _ _ (Message.with_disappering m (f m)) k');
        [|done|done]. apply list_elem_of_fmap. by exists m.
Qed.

(** The sweep of the store with other flags is the sweep of the store, with
    the other flags. *)
Lemma sweep_reflag (db : Store) :
  Message_objects (Message.delete_disappearing_messages now (reflag f db)).1
  = (λ m, Message.with_disappering m (f m))
      <$> Message_objects (Message.delete_disappearing_messages now db).1.
Proof.
  unfold Message.delete_disappearing_messages, reflag, queryset_delete. simpl.
  apply filter_fmap_on. intros m.
  rewrite !collect_doomed, doomed_reflag. done.
Qed.

End sweep_flags.

(** A message that the filter of the sweep does not select, its
    [disappering_at] null or later than [now], is deleted exactly when it
    replies to a message that the sweep deletes. *)
Lemma sweep_unselected (now : Z) (db : Store) (m : Message) :
  NoDup (message_pk <$> Message_objects db) →
  m ∈ Message_objects db →
  ¬ Message.disappering_at_lte now m →
  (m ∉ Message_objects (Message.delete_disappearing_messages now db).1
   ↔ ∃ k m', message m = Some k ∧ m' ∈ Message_objects db
             ∧ message_pk m' = k
             ∧ m' ∉ Message_objects (Message.delete_disappearing_messages now db).1)
  ∧ (message m = None →
     m ∈ Message_objects (Message.delete_disappearing_messages now db).1).
Proof.
  intros Hpks Hm Hnot. split; [split|].
  - intros Hgone%sweep_removed; [|done].
    destruct (swept_inv _ _ _ Hgone) as (m0 & Hm0 & Hpk & Hwhy).
    assert (m0 = m) as -> by (by apply (pk_unique (Message_objects db))).
    destruct Hwhy as [Hexp|(k & Hreply & Hk)]; [done|].
    destruct (swept_row_removed _ _ _ Hk) as (m' & ? & ? & ?).
    by exists k, m'.
  - intros (k & m' & Hreply & Hm' & <- & Hgone) [_ Hkept]%elem_of_sweep.
    apply Hkept. eapply doomed_reply; [done..|]. by apply sweep_removed.
  - intros Hroot. apply elem_of_sweep. split; [done|]. intros Hswept.
    destruct (swept_inv _ _ _ Hswept) as (m0 & Hm0 & Hpk & Hwhy).
    assert (m0 = m) as -> by (by apply (pk_unique (Message_objects db))).
    destruct Hwhy as [Hexp|(k & Hreply & _)]; [done | congruence].
Qed.

(** C9, amended.  What the sweep deletes depends on [disappering_at] only,
    not on the [disappering] flag: setting the flags of the messages anew,
    in whatever way, changes nothing in which messages the sweep deletes.
    A message whose [disappering_at] is set and at or before [now] is
    deleted whatever its flag.  A message whose [disappering_at] is null,
    and likewise one whose [disappering_at] is later than [now], is never
    selected, whatever its flag; it is deleted by the sweep only through
    the cascade, that is exactly when it replies to a message that the
    sweep deletes, and when it is not a reply it is never deleted. *)
Theorem sweep_ignores_flag (now : Z) (db : Store) (m : Message) :
  NoDup (message_pk <$> Message_objects db) →
  m ∈ Message_objects db →
  let db' := (Message.delete_disappearing_messages now db).1 in
  (∀ pk ts txt flag d reply p,
     Message.disappering_at_lte now (mkMessage pk ts txt flag d reply p)
     ↔ Message.disappering_at_lte now (mkMessage pk ts txt (negb flag) d reply p))
  ∧ (∀ f : Message → bool,
       Message_objects (Message.delete_disappearing_messages now (reflag f db)).1
       = (λ m, Message.with_disappering m (f m)) <$> Message_objects db')
  ∧ (∀ t, disappering_at m = Some t → t ≤ now → m ∉ Message_objects db')
  ∧ (disappering_at m = None →
     m ∉ filter (Message.disappering_at_lte now) (Message_objects db))
  ∧ (disappering_at m = None →
     (m ∉ Message_objects db'
      ↔ ∃ k m', message m = Some k ∧ m' ∈ Message_objects db
                ∧ message_pk m' = k ∧ m' ∉ Message_objects db'))
  ∧ (disappering_at m = None → message m = None → m ∈ Message_objects db')
  ∧ (∀ t, disappering_at m = Some t → now < t →
       m ∉ filter (Message.disappering_at_lte now) (Message_objects db)
       ∧ (m ∉ Message_objects db'
          ↔ ∃ k m', message m = Some k ∧ m' ∈ Message_objects db
                    ∧ message_pk m' = k ∧ m' ∉ Message_objects db')
       ∧ (message m = None → m ∈ Message_objects db')).
Proof.
  intros Hpks Hm db'.
  assert (disappering_at m = None → ¬ Message.disappering_at_lte now m) as Hnull.
  { unfold Message.disappering_at_lte. intros -> []. }
  assert (∀ t, disappering_at m = Some t → now < t →
               ¬ Message.disappering_at_lte now m) as Hlater.
  { unfold Message.disappering_at_lte. intros t -> ? ?. lia. }
  split; [done|].
  split; [intros f; apply sweep_reflag|].
  split.
  { intros t Ht Hle. apply sweep_expired; [done|].
    unfold Message.disappering_at_lte. by rewrite Ht. }
  split.
  { intros Hnone [? _]%list_elem_of_filter. by apply Hnull. }
  split.
  { intros Hnone. by apply sweep_unselected, Hnull. }
  split.
  { intros Hnone. by apply sweep_unselected, Hnull. }
  intros t Ht Hlt.
  assert (¬ Message.disappering_at_lte now m) as Hnot by by eapply Hlater.
  split; [by intros [? _]%list_elem_of_filter|].
  by apply sweep_unselected.
Qed.

Lemma sweep_ignores_flag_witness :
  let p := mkParticipant 1 group_room alice true 0 in
  let expired := mkMessage 1 5 (Some "old news") false (Some 10) None p in
  let due := mkMessage 2 6 (Some "for an hour") true (Some 100) None p in
  let unstamped := mkMessage 3 7 (Some "not stamped yet") true None None p in
  disappering expired = false
  ∧ expired ∉ Message_objects (Message.delete_disappearing_messages 20 flag_store).1
  ∧ disappering due = true
  ∧ due ∈ Message_objects (Message.delete_disappearing_messages 20 flag_store).1
  ∧ disappering unstamped = true
  ∧ unstamped ∈ Message_objects (Message.delete_disappearing_messages 20 flag_store).1
  ∧ Message_objects
      (Message.delete_disappearing_messages 20 (reflag negb_flag flag_store)).1
    = (λ m, Message.with_disappering m (negb_flag m))
        <$> Message_objects (Message.delete_disappearing_messages 20 flag_store).1.
Proof.
  intros p expired due unstamped.
  assert (NoDup (message_pk <$> Message_objects flag_store)) as Hpks.
  { apply NoDup_cons_2;
      [|apply NoDup_cons_2; [|apply NoDup_cons_2; [|apply NoDup_nil_2]]].
    - intros [[=]|[[=]|[]%elem_of_nil]%elem_of_cons]%elem_of_cons.
    - intros [[=]|[]%elem_of_nil]%elem_of_cons.
    - intros []%elem_of_nil. }
  destruct (sweep_ignores_flag 20 flag_store expired Hpks ltac:(left))
    as (_ & Hblind & Hexpired & _).
  destruct (sweep_ignores_flag 20 flag_store due Hpks ltac:(right; left))
    as (_ & _ & _ & _ & _ & _ & Hdue).
  destruct (sweep_ignores_flag 20 flag_store unstamped Hpks ltac:(right; right; left))
    as (_ & _ & _ & _ & _ & Hunstamped & _).
  split; [done|]. split; [by apply (Hexpired 10)|].
  split; [done|]. split; [by apply (Hdue 100)|].
  split; [done|]. split; [by apply Hunstamped|].
  apply Hblind.
Defined.

(** * Further properties *)

(** ** Primary keys *)

Lemma next_pk_above (pks : list Z) (k : Z) : k ∈ pks → k < next_pk pks.
Proof.
  unfold next_pk. induction pks as [|k' pks IH]; [by intros ?%elem_of_nil|].
  intros [->|Hk%IH]%elem_of_cons; simpl; lia.
Qed.

Lemma next_pk_fresh (pks : list Z) : next_pk pks ∉ pks.
Proof. intros Hin%next_pk_above. lia. Qed.

Lemma next_pk_positive (pks : list Z) : 0 < next_pk pks.
Proof. unfold next_pk. induction pks as [|k pks IH]; simpl; lia. Qed.

Lemma NoDup_snoc_fresh {A} (l : list A) (x : A) :
  NoDup l → x ∉ l → NoDup (l ++ [x]).
Proof.
  intros Hl Hx. apply NoDup_app. split; [done|].
  split; [|apply NoDup_singleton].
  intros y Hy ->%list_elem_of_singleton. done.
Qed.

Lemma filter_filter_on {A} (P Q R : A → Prop) `{!∀ x, Decision (P x)}
    `{!∀ x, Decision (Q x)} `{!∀ x, Decision (R x)} (l : list A) :
  (∀ x, x ∈ l → (P x ∧ Q x ↔ R x)) → filter P (filter Q l) = filter R l.
Proof.
  induction l as [|x l IH]; intros Hiff; [done|].
  assert (filter P (filter Q l) = filter R l) as IH'
    by (apply IH; intros y Hy; apply Hiff; by right).
  assert (P x ∧ Q x ↔ R x) as Hx by (apply Hiff; left).
  rewrite (filter_cons Q), (filter_cons R).
  destruct (decide (Q x)), (decide (R x)).
  - rewrite filter_cons_True by tauto. by rewrite IH'.
  - rewrite filter_cons_False by tauto. done.
  - tauto.
  - done.
Qed.

(** ** Room: the auto-join always goes through *)

(** X1.  [auto_join_room] never raises: when the creator already has a
    membership, in whatever room, it leaves the store as it is, and otherwise
    it appends exactly one row, for this room and the creator, with
    [is_admin] set and [date_joined] the time of the call.  The existence
    test rules out the uniqueness error of the insertion. *)
Theorem auto_join_room_never_raises (now : Z) (db : Store) (r : Room) :
  (memberships db (room_created_by r) ≠ []
   ∧ Room.auto_join_room now db r = Ok db)
  ∨ (memberships db (room_created_by r) = []
     ∧ ∃ p, Room.auto_join_room now db r = Ok (add_participant db p)
            ∧ room p = r ∧ user p = room_created_by r
            ∧ is_admin p = true ∧ date_joined p = now
            ∧ participant_pk p ∉ participant_pk <$> Participant_objects db).
Proof.
  destruct (decide (memberships db (room_created_by r) = [])) as [Hnone|Hsome].
  - right. split; [done|]. eexists. split; [by apply auto_join_room_fresh|].
    simpl. repeat split. apply next_pk_fresh.
  - left. split; [done|]. by apply auto_join_room_member.
Qed.

(** X2.  Running [auto_join_room] again on the store it produced, at any
    later time, changes nothing. *)
Theorem auto_join_room_idempotent (now now' : Z) (db db' : Store) (r : Room) :
  Room.auto_join_room now db r = Ok db' →
  Room.auto_join_room now' db' r = Ok db'.
Proof. apply auto_join_room_again. Qed.

Lemma auto_join_room_idempotent_witness :
  let r := mkRoom 7 bob 0 None None None 2 false true in
  ∃ db', Room.auto_join_room 3 group_store r = Ok db'
         ∧ length (Participant_objects db') = 2%nat
         ∧ Room.auto_join_room 4 db' r = Ok db'.
Proof.
  intros r. eexists. split; [reflexivity|]. split; [reflexivity|].
  by apply (auto_join_room_idempotent 3 4 group_store _ r).
Defined.

(** X3.  A membership of the creator in any room, also another one than the
    room at hand, makes [auto_join_room] do nothing. *)
Theorem auto_join_room_skips_member (now : Z) (db : Store) (r : Room)
    (p : Participant) :
  p ∈ Participant_objects db →
  user_pk (user p) = user_pk (room_created_by r) →
  Room.auto_join_room now db r = Ok db.
Proof.
  intros Hp Hu. apply auto_join_room_member. intros Hnone.
  assert (p ∈ memberships db (room_created_by r)) as Hin
    by (by apply list_elem_of_filter).
  rewrite Hnone in Hin. by apply elem_of_nil in Hin.
Qed.

Lemma auto_join_room_skips_member_witness :
  let other := mkRoom 9 alice 0 None (Some "other") None 5 false true in
  Room.participants group_store other = []
  ∧ Room.auto_join_room 3 group_store other = Ok group_store.
Proof.
  intros other. split; [reflexivity|].
  apply (auto_join_room_skips_member 3 group_store other
           (mkParticipant 1 group_room alice true 0)); [left | reflexivity].
Defined.

(** ** Participant: what an insertion keeps *)

Lemma create_inv (now : Z) (db db' : Store) (r : Room) (u : User) (adm : bool)
    (p : Participant) :
  Participant_objects_create now db r u adm = Ok (db', p) →
  p = mkParticipant (next_pk (participant_pk <$> Participant_objects db)) r u adm now
  ∧ db' = add_participant db p
  ∧ ∀ q, q ∈ Participant_objects db →
         ¬ (room_pk (room q) = room_pk r ∧ user_pk (user q) = user_pk u).
Proof.
  unfold Participant_objects_create.
  destruct (existsb _ _) eqn:Hex; [done|]. intros [= <- <-].
  repeat split. intros q Hq [Hr Hu].
  assert (existsb
            (λ p, (room_pk (room p) =? room_pk r) && (user_pk (user p) =? user_pk u))
            (Participant_objects db) = true) as Htrue; [|congruence].
  apply existsb_exists. exists q. split; [by apply list_elem_of_In|].
  apply andb_true_iff. by rewrite !Z.eqb_eq.
Qed.

(** X4.  A successful [Participant.objects.create] gives the new row a
    positive primary key that no row of the table has, and keeps both
    uniqueness properties of the table: no two rows with the same primary
    key, no two rows for the same room and user. *)
Theorem create_keeps_uniqueness (now : Z) (db db' : Store) (r : Room) (u : User)
    (adm : bool) (p : Participant) :
  Participant_objects_create now db r u adm = Ok (db', p) →
  0 < participant_pk p
  ∧ (participant_pk p ∉ participant_pk <$> Participant_objects db)
  ∧ (NoDup (participant_pk <$> Participant_objects db) →
     NoDup (participant_pk <$> Participant_objects db'))
  ∧ (NoDup (participant_pairs db) → NoDup (participant_pairs db')).
Proof.
  intros (-> & -> & Hfresh)%create_inv. simpl.
  split; [apply next_pk_positive|]. split; [apply next_pk_fresh|]. split.
  - intros Hpks. rewrite fmap_app. simpl.
    apply NoDup_snoc_fresh; [done | apply next_pk_fresh].
  - unfold participant_pairs. simpl. intros Hpairs. rewrite fmap_app. simpl.
    apply NoDup_snoc_fresh; [done|].
    intros (q & [= Hr Hu] & Hq)%list_elem_of_fmap.
    by apply (Hfresh q).
Qed.

Lemma create_keeps_uniqueness_witness :
  ∃ db' p, Participant_objects_create 9 group_store group_room bob false = Ok (db', p)
           ∧ participant_pk p = 2
           ∧ NoDup (participant_pairs db').
Proof.
  eexists _, _. split; [reflexivity|]. split; [reflexivity|].
  apply (create_keeps_uniqueness 9 group_store _ group_room bob false _ eq_refl).
  apply NoDup_singleton.
Defined.

(** X5.  A row inserted after the capacity check has passed never takes the
    room over its capacity, and the participants of every other room are the
    same as before. *)
Theorem checked_insert_within_capacity (now : Z) (db db' : Store) (u : User)
    (adm : bool) (self p : Participant) :
  Participant.validate_room_max_participants db self = Ok tt →
  Participant_objects_create now db (room self) u adm = Ok (db', p) →
  queryset_count (Room.participants db' (room self))
  = queryset_count (Room.participants db (room self)) + 1
  ∧ queryset_count (Room.participants db' (room self))
    ≤ max_participants (room self)
  ∧ ∀ r', room_pk r' ≠ room_pk (room self) →
          Room.participants db' r' = Room.participants db r'.
Proof.
  intros Hbelow%validate_room_max_participants_passes
         (-> & -> & _)%create_inv.
  assert (queryset_count
            (Room.participants
               (add_participant db
                  (mkParticipant (next_pk (participant_pk <$> Participant_objects db))
                     (room self) u adm now)) (room self))
          = queryset_count (Room.participants db (room self)) + 1) as Hcount.
  { rewrite participants_add. simpl. rewrite decide_True by done.
    unfold queryset_count. rewrite length_app. simpl. lia. }
  split; [done|]. split; [lia|].
  intros r' Hother. rewrite participants_add. simpl.
  rewrite decide_False by done. apply app_nil_r.
Qed.

Lemma checked_insert_within_capacity_witness :
  ∃ db' p, Participant_objects_create 9 group_store group_room bob false = Ok (db', p)
           ∧ queryset_count (Room.participants db' group_room) = 2
           ∧ Room.participants db' direct_room = [].
Proof.
  eexists _, _. split; [reflexivity|].
  destruct (checked_insert_within_capacity 9 group_store _ bob false
              (mkParticipant 0 group_room bob false 9) _ eq_refl eq_refl)
    as (Hcount & _ & Hother).
  split; [exact Hcount|]. by apply (Hother direct_room).
Defined.

(** ** Room: only a group room needs a name *)

(** X6.  [validate_name] fails exactly for a room that [is_group] and has a
    name that counts as false; a room that is not a group passes with any
    name, also none. *)
Theorem validate_name_is_group (r : Room) :
  (Room.validate_name r = Raise (ValidationError "Group Rooms need a name!")
   ↔ Room.is_group r = true ∧ truthy_str (name r) = false)
  ∧ (Room.is_group r = false → Room.validate_name r = Ok tt)
  ∧ (Room.is_group r = true ↔ 2 < max_participants r).
Proof.
  unfold Room.validate_name, Room.is_group.
  destruct (truthy_str (name r)), (2 <? max_participants r) eqn:Hmax; simpl;
    (apply Z.ltb_lt in Hmax || apply Z.ltb_ge in Hmax);
    repeat split; (done || lia || (intros [? ?]; done) || idtac).
Qed.

Lemma validate_name_is_group_witness :
  Room.validate_name direct_room = Ok tt.
Proof. by apply (proj1 (proj2 (validate_name_is_group direct_room))). Defined.

(** ** Contact: one row for an owner and a person *)

(** X7.  [Contact.objects.create] raises the uniqueness error exactly when
    the table already has a row for this owner and this person, in this
    order; a success appends one row, after which the same pair is refused
    and the pairs of the table are still without repetition. *)
Theorem contact_create_unique (tbl : list Contact) (o p : User) :
  (Contact_objects_create tbl o p
   = Raise (IntegrityError "UNIQUE constraint failed: owner, person")
   ↔ (user_pk o, user_pk p) ∈ contact_pairs tbl)
  ∧ ((user_pk o, user_pk p) ∉ contact_pairs tbl →
     ∃ c, Contact_objects_create tbl o p = Ok (tbl ++ [c], c)
          ∧ owner c = o ∧ person c = p
          ∧ (contact_pk c ∉ contact_pk <$> tbl)
          ∧ Contact_objects_create (tbl ++ [c]) o p
            = Raise (IntegrityError "UNIQUE constraint failed: owner, person")
          ∧ (NoDup (contact_pairs tbl) → NoDup (contact_pairs (tbl ++ [c])))).
Proof.
  assert (∀ t, existsb
            (λ c, (user_pk (owner c) =? user_pk o) && (user_pk (person c) =? user_pk p))
            t = true ↔ (user_pk o, user_pk p) ∈ contact_pairs t) as Hex.
  { intros t. unfold contact_pairs.
    rewrite existsb_exists, list_elem_of_fmap. split.
    - intros (c & Hc%list_elem_of_In & [?%Z.eqb_eq ?%Z.eqb_eq]%andb_true_iff).
      exists c. split; [congruence | done].
    - intros (c & [= Ho Hp] & Hc). exists c.
      split; [by apply list_elem_of_In|].
      apply andb_true_iff. rewrite !Z.eqb_eq. done. }
  split.
  - unfold Contact_objects_create. rewrite <- Hex.
    destruct (existsb _ tbl); split; (done || intros [=]).
  - intros Hnew. eexists. split; [|split; [|split; [|split; [|split]]]].
    + unfold Contact_objects_create.
      destruct (existsb _ tbl) eqn:Htaken; [|reflexivity].
      by apply Hex in Htaken.
    + done.
    + done.
    + apply next_pk_fresh.
    + unfold Contact_objects_create.
      rewrite (proj2 (Hex (tbl ++ [_]))); [done|].
      unfold contact_pairs. rewrite fmap_app. apply elem_of_app. right. by left.
    + intros Hpairs. unfold contact_pairs. rewrite fmap_app. simpl.
      by apply NoDup_snoc_fresh.
Qed.

Lemma contact_create_unique_witness :
  ∃ c1 c2,
    Contact_objects_create [] alice bob = Ok ([c1], c1)
    ∧ Contact_objects_create [c1] bob alice = Ok ([c1; c2], c2)
    ∧ Contact_objects_create [c1; c2] alice bob
      = Raise (IntegrityError "UNIQUE constraint failed: owner, person").
Proof.
  eexists _, _. split; [reflexivity|]. split; [reflexivity|].
  apply (contact_create_unique _ alice bob). by left.
Defined.

(** ** Message: saving *)

(** X8.  [set_disappearing_at] changes no field but [disappering_at], and
    stamping a message that went through it already, at whatever time,
    changes nothing more. *)
Theorem set_disappearing_at_idempotent (t1 t2 : Z) (m : Message) :
  Message.set_disappearing_at t2 (Message.set_disappearing_at t1 m)
  = Message.set_disappearing_at t1 m
  ∧ Message.set_disappearing_at t1 m
    = Message.with_disappering_at m
        (disappering_at (Message.set_disappearing_at t1 m))
  ∧ (disappering_at (Message.set_disappearing_at t1 m) = None
     ↔ disappering m = false ∧ disappering_at m = None).
Proof.
  unfold Message.set_disappearing_at, Message.with_disappering_at.
  destruct m as [pk ts txt [|] [d|] reply p]; simpl; repeat split;
    (done || (intros [? ?]; done) || idtac).
Qed.

Section message_persist.

Implicit Types (m : Message) (db : Store) (tbl : list Message).

Lemma persist_upsert db m :
  Message.persist db m
  = mkStore (Room_objects db) (Participant_objects db)
      (upsert_row m (Message_objects db)).
Proof. reflexivity. Qed.

Lemma existsb_pk tbl m :
  existsb (λ m', message_pk m' =? message_pk m) tbl = true
  ↔ message_pk m ∈ message_pk <$> tbl.
Proof.
  rewrite existsb_exists, list_elem_of_fmap. split.
  - intros (m' & Hm'%list_elem_of_In & Hpk%Z.eqb_eq). by exists m'.
  - intros (m' & Hpk & Hm'). exists m'.
    split; [by apply list_elem_of_In | by apply Z.eqb_eq].
Qed.

Lemma replace_row_pks m tbl :
  message_pk <$> replace_row m tbl = message_pk <$> tbl.
Proof.
  unfold replace_row. rewrite <- list_fmap_compose. apply list_fmap_ext.
  intros i m' _. simpl. by destruct (Z.eqb_spec (message_pk m') (message_pk m)).
Qed.

Lemma replace_row_absent m tbl :
  message_pk m ∉ message_pk <$> tbl → replace_row m tbl = tbl.
Proof.
  intros Hnew. unfold replace_row. rewrite <- (list_fmap_id tbl) at 2.
  apply list_fmap_ext. intros i m' Hm'. simpl.
  destruct (Z.eqb_spec (message_pk m') (message_pk m)) as [Hpk|]; [|done].
  destruct Hnew. rewrite <- Hpk. apply list_elem_of_fmap_2.
  by eapply list_elem_of_lookup_2.
Qed.

Lemma replace_row_twice m tbl :
  replace_row m (replace_row m tbl) = replace_row m tbl.
Proof.
  unfold replace_row. rewrite <- list_fmap_compose. apply list_fmap_ext.
  intros i m' _. simpl.
  destruct (Z.eqb_spec (message_pk m') (message_pk m)) as [|Hne].
  - by rewrite Z.eqb_refl.
  - by destruct (Z.eqb_spec (message_pk m') (message_pk m)).
Qed.

Lemma upsert_row_pks m tbl :
  message_pk <$> upsert_row m tbl
  = if decide (message_pk m ∈ message_pk <$> tbl)
    then message_pk <$> tbl
    else (message_pk <$> tbl) ++ [message_pk m].
Proof.
  unfold upsert_row. destruct (existsb _ _) eqn:Hex.
  - apply existsb_pk in Hex. rewrite decide_True by done.
    apply replace_row_pks.
  - rewrite decide_False; [by rewrite fmap_app|].
    intros Hin%existsb_pk. congruence.
Qed.

Lemma upsert_row_twice m tbl : upsert_row m (upsert_row m tbl) = upsert_row m tbl.
Proof.
  unfold upsert_row at 1.
  assert (existsb (λ m', message_pk m' =? message_pk m) (upsert_row m tbl) = true)
    as ->.
  { apply existsb_pk. rewrite upsert_row_pks. destruct (decide _); [done|].
    apply elem_of_app. right. by left. }
  unfold upsert_row. destruct (existsb _ tbl) eqn:Hex.
  - apply replace_row_twice.
  - unfold replace_row. rewrite fmap_app. simpl. rewrite Z.eqb_refl.
    f_equal. apply (replace_row_absent m).
    intros Hin%existsb_pk. congruence.
Qed.

Lemma elem_of_upsert_row m tbl m' :
  m' ∈ upsert_row m tbl
  ↔ (message_pk m' ≠ message_pk m ∧ m' ∈ tbl) ∨ m' = m.
Proof.
  unfold upsert_row. destruct (existsb _ tbl) eqn:Hex.
  - unfold replace_row. rewrite list_elem_of_fmap. split.
    + intros (m0 & -> & Hm0).
      destruct (Z.eqb_spec (message_pk m0) (message_pk m)); [by right | by left].
    + intros [[Hne Hm']| ->].
      * exists m'. split; [|done].
        by destruct (Z.eqb_spec (message_pk m') (message_pk m)).
      * apply existsb_exists in Hex as (m0 & Hm0%list_elem_of_In & Hpk).
        exists m0. by rewrite Hpk.
  - rewrite elem_of_app, list_elem_of_singleton. split.
    + intros [Hm'| ->]; [|by right]. left. split; [|done].
      intros Hpk. assert (message_pk m ∈ message_pk <$> tbl) as Hin%existsb_pk;
        [|congruence].
      rewrite <- Hpk. by apply list_elem_of_fmap_2.
    + intros [[_ ?]| ->]; [by left | by right].
Qed.

End message_persist.

(** X9.  Saving a message a second time, right after a first save and at
    any later time, leaves the table and the instance as the first save
    left them: no second row, no new stamp. *)
Theorem save_twice (t1 t2 : Z) (db : Store) (m : Message) :
  Message.save t2 (Message.save t1 db m).1 (Message.save t1 db m).2
  = Message.save t1 db m.
Proof.
  unfold Message.save. simpl.
  rewrite (proj1 (set_disappearing_at_idempotent t1 t2 m)).
  rewrite !persist_upsert. simpl. by rewrite upsert_row_twice.
Qed.

(** X10.  A save writes exactly the row of the message's primary key: the
    keys of the table stay as they are when the key is there already and
    get the new key at the end otherwise, every row with that key is the
    saved instance afterwards, the rows of other keys are the rows from
    before, and a table without repeated keys stays without.  Rooms and
    participants are not touched. *)
Theorem save_writes_one_row (now : Z) (db : Store) (m : Message) :
  let db' := (Message.save now db m).1 in
  let saved := (Message.save now db m).2 in
  message_pk saved = message_pk m
  ∧ message_pk <$> Message_objects db'
    = (if decide (message_pk m ∈ message_pk <$> Message_objects db)
       then message_pk <$> Message_objects db
       else (message_pk <$> Message_objects db) ++ [message_pk m])
  ∧ (∀ m', m' ∈ Message_objects db' → message_pk m' = message_pk m →
           m' = saved)
  ∧ (∀ m', message_pk m' ≠ message_pk m →
           (m' ∈ Message_objects db' ↔ m' ∈ Message_objects db))
  ∧ (NoDup (message_pk <$> Message_objects db) →
     NoDup (message_pk <$> Message_objects db'))
  ∧ Room_objects db' = Room_objects db
  ∧ Participant_objects db' = Participant_objects db.
Proof.
  intros db' saved.
  assert (message_pk saved = message_pk m) as Hpk.
  { unfold saved, Message.save, Message.set_disappearing_at. simpl.
    by destruct (_ && _). }
  assert (Message_objects db' = upsert_row saved (Message_objects db)) as Htbl
    by reflexivity.
  assert (message_pk <$> Message_objects db'
          = if decide (message_pk m ∈ message_pk <$> Message_objects db)
            then message_pk <$> Message_objects db
            else (message_pk <$> Message_objects db) ++ [message_pk m]) as Hpks.
  { rewrite Htbl, upsert_row_pks. by rewrite Hpk. }
  split; [done|]. split; [done|]. split; [|split; [|split; [|done]]].
  - intros m'. rewrite Htbl, elem_of_upsert_row, Hpk. intros [[? _]|?]; done.
  - intros m' Hne. rewrite Htbl, elem_of_upsert_row, Hpk. split.
    + intros [[_ ?]| ->]; done.
    + intros Hm'. by left.
  - intros Hnodup. rewrite Hpks. destruct (decide _); [done|].
    by apply NoDup_snoc_fresh.
Qed.

Lemma save_writes_one_row_witness :
  let p := mkParticipant 1 group_room alice true 0 in
  let edited := mkMessage 2 7 (Some "fine") true None (Some 1) p in
  message_pk <$> Message_objects (Message.save 50 thread_store edited).1 = [1; 2]
  ∧ NoDup (message_pk <$> Message_objects (Message.save 50 thread_store edited).1).
Proof.
  intros p edited.
  destruct (save_writes_one_row 50 thread_store edited)
    as (_ & Hpks & _ & _ & Hnodup & _).
  split; [exact Hpks|]. apply Hnodup.
  apply NoDup_cons_2; [|apply NoDup_singleton].
  by intros [=]%list_elem_of_singleton.
Defined.

(** ** Message: more on the sweep *)

Section sweep_order.

Implicit Types (db : Store) (m : Message) (k : Z).

Lemma disappering_at_lte_mono now now' m :
  now ≤ now' → Message.disappering_at_lte now m → Message.disappering_at_lte now' m.
Proof.
  unfold Message.disappering_at_lte. destruct (disappering_at m); [lia | done].
Qed.

Lemma doomed_mono (tbl tbl' : list Message) (P Q : Message → Prop) k :
  (∀ m, m ∈ tbl → m ∈ tbl') → (∀ m, m ∈ tbl → P m → Q m) →
  doomed tbl P k → doomed tbl' Q k.
Proof.
  intros Htbl HPQ. induction 1 as [m Hm HP|m k' Hm Hreply _ IH].
  - apply doomed_selected; [by apply Htbl | by apply HPQ].
  - eapply doomed_reply; [by apply Htbl | done | done].
Qed.

Lemma swept_mono now now' db k : now ≤ now' → swept now db k → swept now' db k.
Proof.
  intros Hle. apply doomed_mono; [done|].
  intros m _. by apply disappering_at_lte_mono.
Qed.

Lemma swept_dec now db k : swept now db k ∨ ¬ swept now db k.
Proof.
  unfold swept.
  destruct (decide (k ∈ collect (length (Message_objects db)) (Message_objects db) ∅
                          (filter (Message.disappering_at_lte now) (Message_objects db))))
    as [Hin|Hout].
  - left. by apply (proj1 (collect_doomed _ _ _)).
  - right. intros Hk. by apply (proj2 (collect_doomed _ _ _)) in Hk.
Qed.

(** What has to go at [now'] either had to go at [now] already, or has to
    go at [now'] from the table the sweep at [now] left. *)
Lemma swept_later_split now now' db k :
  swept now' db k →
  swept now db k
  ∨ swept now' (Message.delete_disappearing_messages now db).1 k.
Proof.
  induction 1 as [m Hm Hexp|m k' Hm Hreply _ IH].
  - destruct (swept_dec now db (message_pk m)) as [?|Hkept]; [by left|].
    right. apply doomed_selected; [|done]. by apply elem_of_sweep.
  - destruct (swept_dec now db (message_pk m)) as [?|Hkept]; [by left|].
    right. destruct IH as [Hk'|Hk'].
    + destruct Hkept. by eapply doomed_reply.
    + eapply doomed_reply; [|done|done]. by apply elem_of_sweep.
Qed.

End sweep_order.

(** X11.  What a sweep keeps, every earlier sweep of the same store keeps
    too: a message deleted by the sweep at some time is deleted by the sweep
    at any later time. *)
Theorem sweep_monotone (now now' : Z) (db : Store) (m : Message) :
  now ≤ now' →
  m ∈ Message_objects (Message.delete_disappearing_messages now' db).1 →
  m ∈ Message_objects (Message.delete_disappearing_messages now db).1.
Proof.
  intros Hle [Hm Hkept]%elem_of_sweep. apply elem_of_sweep. split; [done|].
  intros Hswept. apply Hkept. by eapply swept_mono.
Qed.

Lemma sweep_monotone_witness :
  let p := mkParticipant 1 group_room alice true 0 in
  mkMessage 2 7 (Some "ok") false None (Some 1) p
  ∈ Message_objects (Message.delete_disappearing_messages 3 thread_store).1.
Proof.
  intros p. apply (sweep_monotone 3 5 thread_store); [lia|].
  right. left.
Defined.

(** X12.  After the sweep no message is left that replies to a deleted
    one: the replies of a deleted message are gone with it, and if every
    reply-to reference of the table led to a row before the sweep, every
    reference of the remaining table leads to a remaining row. *)
Theorem sweep_keeps_references (now : Z) (db : Store) :
  let db' := (Message.delete_disappearing_messages now db).1 in
  (∀ m, m ∈ Message_objects db → m ∉ Message_objects db' →
        Message.replies db' m = [])
  ∧ ((∀ m k, m ∈ Message_objects db → message m = Some k →
             ∃ m', m' ∈ Message_objects db ∧ message_pk m' = k) →
     ∀ m k, m ∈ Message_objects db' → message m = Some k →
            ∃ m', m' ∈ Message_objects db' ∧ message_pk m' = k).
Proof.
  intros db'. split.
  - intros m Hm Hgone%sweep_removed; [|done].
    apply filter_none. intros m' [Hm' Hkept]%elem_of_sweep Hreply.
    apply Hkept. by eapply doomed_reply.
  - intros Hrefs m k [Hm Hkept]%elem_of_sweep Hreply.
    destruct (Hrefs m k Hm Hreply) as (m' & Hm' & <-).
    exists m'. split; [|done]. apply elem_of_sweep. split; [done|].
    intros Hswept. apply Hkept. by eapply doomed_reply.
Qed.

Lemma sweep_keeps_references_witness :
  let p := mkParticipant 1 group_room alice true 0 in
  Message.replies (Message.delete_disappearing_messages 20 thread_store).1
    (mkMessage 1 5 (Some "see you at noon") true (Some 10) None p) = [].
Proof.
  intros p. apply (sweep_keeps_references 20 thread_store); [left|].
  by intros ?%elem_of_nil.
Defined.

(** X13.  A sweep after an earlier sweep leaves what the later sweep alone
    leaves: sweeping at [now] and then at [now'], not before [now], gives
    the store that the sweep at [now'] gives. *)
Theorem sweep_then_sweep (now now' : Z) (db : Store) :
  now ≤ now' →
  Message.delete_disappearing_messages now'
    (Message.delete_disappearing_messages now db).1
  = Message.delete_disappearing_messages now' db.
Proof.
  intros Hle.
  set (tbl := Message_objects db).
  set (tbl1 := queryset_delete tbl (filter (Message.disappering_at_lte now) tbl)).
  assert (∀ m, m ∈ tbl →
               (¬ doomed tbl1 (Message.disappering_at_lte now') (message_pk m)
                ∧ ¬ doomed tbl (Message.disappering_at_lte now) (message_pk m))
               ↔ ¬ doomed tbl (Message.disappering_at_lte now') (message_pk m))
    as Hiff.
  { intros m Hm. split.
    - intros [Hafter Hfirst] Hlater.
      destruct (swept_later_split now now' db _ Hlater) as [?|?]; done.
    - intros Hkept. split.
      + intros Hafter. apply Hkept. revert Hafter. apply doomed_mono; [|done].
        intros m'. by intros [? _]%elem_of_queryset_delete.
      + intros Hfirst. apply Hkept. by apply (swept_mono now now' db). }
  unfold Message.delete_disappearing_messages at 1 3. simpl. do 2 f_equal.
  fold tbl. fold tbl1.
  trans (filter
           (λ m, message_pk m ∉ collect (length tbl1) tbl1 ∅
                                  (filter (Message.disappering_at_lte now') tbl1))
           (filter
              (λ m, message_pk m ∉ collect (length tbl) tbl ∅
                                     (filter (Message.disappering_at_lte now) tbl))
              tbl)); [reflexivity|].
  apply filter_filter_on. intros m Hm.
  rewrite !collect_doomed. by apply Hiff.
Qed.

Lemma sweep_then_sweep_witness :
  Message.delete_disappearing_messages 20
    (Message.delete_disappearing_messages 5 thread_store).1
  = Message.delete_disappearing_messages 20 thread_store.
Proof. apply (sweep_then_sweep 5 20 thread_store). lia. Defined.

(** X14.  The sweep only takes rows away: the messages left are the
    messages from before with some left out, in the same order, and a table
    without repeated primary keys stays without. *)
Theorem sweep_sublist (now : Z) (db : Store) :
  Message_objects (Message.delete_disappearing_messages now db).1
    `sublist_of` Message_objects db
  ∧ (length (Message_objects (Message.delete_disappearing_messages now db).1)
     ≤ length (Message_objects db))%nat
  ∧ (NoDup (message_pk <$> Message_objects db) →
     NoDup (message_pk <$>
              Message_objects (Message.delete_disappearing_messages now db).1)).
Proof.
  assert (Message_objects (Message.delete_disappearing_messages now db).1
            `sublist_of` Message_objects db) as Hsub by apply sublist_filter.
  split; [done|]. split; [by apply sublist_length|].
  intros Hnodup. eapply sublist_NoDup; [exact Hnodup | by apply fmap_sublist].
Qed.

Lemma sweep_sublist_witness :
  NoDup (message_pk <$>
           Message_objects (Message.delete_disappearing_messages 20 thread_store).1).
Proof.
  apply (sweep_sublist 20 thread_store).
  apply NoDup_cons_2; [|apply NoDup_singleton].
  by intros [=]%list_elem_of_singleton.
Defined.

(** ** Message: more on the hourly volume *)

Section volume_window.

Implicit Types (db : Store) (m : Message).

Lemma bucket_in_window now db i :
  0 ≤ i < 24 →
  Message.created_between (bucket_start now i)
    (bucket_start now i + timedelta_hours 1) db
  = filter (λ m, bucket_start now i ≤ message_creation_timestamp m
                 ∧ message_creation_timestamp m
                   < bucket_start now i + timedelta_hours 1)
      (Message.created_between (now - timedelta_hours 24) now db).
Proof.
  intros Hi. unfold Message.created_between. symmetry.
  apply filter_filter_on. intros m _.
  unfold bucket_start, timedelta_hours. lia.
Qed.

Lemma bucket_count_window now db1 db2 i :
  0 ≤ i < 24 →
  Message.created_between (now - timedelta_hours 24) now db1
  = Message.created_between (now - timedelta_hours 24) now db2 →
  bucket_count now db1 i = bucket_count now db2 i.
Proof.
  intros Hi Hsame. unfold bucket_count.
  by rewrite !bucket_in_window, Hsame.
Qed.

Lemma stats_upto_window now db1 db2 (n : nat) :
  (n ≤ 24)%nat →
  Message.created_between (now - timedelta_hours 24) now db1
  = Message.created_between (now - timedelta_hours 24) now db2 →
  stats_upto now db1 n = stats_upto now db2 n.
Proof.
  intros Hn Hsame. induction n as [|n IH]; [done|].
  rewrite !stats_upto_S, IH by lia.
  by rewrite (bucket_count_window now db1 db2 (Z.of_nat n)) by (done || lia).
Qed.

Lemma strftime_HM_day (t : Z) :
  strftime_HM (t - timedelta_hours 24) = strftime_HM t.
Proof.
  unfold strftime_HM, timedelta_hours. f_equal; [|f_equal]; f_equal;
    Z.to_euclidean_division_equations; lia.
Qed.

End volume_window.

(** X15.  The dictionary depends on the messages created in the 24 hours
    before [now] only: two stores with the same such messages, whatever
    older or newer messages, rooms and participants they hold, give the same
    dictionary. *)
Theorem stats_window_only (now : Z) (db1 db2 : Store) :
  Message.created_between (now - timedelta_hours 24) now db1
  = Message.created_between (now - timedelta_hours 24) now db2 →
  Message.get_message_volume_stats now db1
  = Message.get_message_volume_stats now db2.
Proof.
  intros Hsame. rewrite !get_message_volume_stats_upto.
  by apply stats_upto_window.
Qed.

Lemma stats_window_only_witness :
  let p := mkParticipant 1 group_room alice true 0 in
  let old := mkMessage 9 (-1) (Some "long ago") false None None p in
  let late := mkMessage 10 (timedelta_hours 24) (Some "just now") false None None p in
  Message.get_message_volume_stats (timedelta_hours 24)
    (mkStore [] [] (old :: Message_objects thread_store ++ [late]))
  = Message.get_message_volume_stats (timedelta_hours 24) thread_store.
Proof.
  intros p old late.
  by apply (stats_window_only (timedelta_hours 24)
              (mkStore [] [] (old :: Message_objects thread_store ++ [late]))
              thread_store).
Defined.

(** X16.  When no message was created in the 24 hours before [now], in
    particular in an empty table, every one of the 24 entries is 0. *)
Theorem stats_empty_window (now : Z) (db : Store) :
  (∀ m, m ∈ Message_objects db →
        ¬ (now - timedelta_hours 24 ≤ message_creation_timestamp m
           ∧ message_creation_timestamp m < now)) →
  size (Message.get_message_volume_stats now db) = 24%nat
  ∧ ∀ k v, Message.get_message_volume_stats now db !! k = Some v → v = 0%nat.
Proof.
  intros Hnone. rewrite get_message_volume_stats_upto.
  split; [by apply stats_upto_size|]. intros k v Hkv.
  destruct (stats_upto_keys now db 24 k) as (i & Hi & ->); [by exists v|].
  rewrite stats_upto_lookup in Hkv by (done || lia).
  injection Hkv as <-. unfold bucket_count.
  rewrite bucket_in_window by lia.
  unfold Message.created_between at 1.
  by rewrite (filter_none _ _ Hnone).
Qed.

Lemma stats_empty_window_witness :
  Message.get_message_volume_stats 0 empty_store !! "00:00" = Some 0%nat.
Proof.
  destruct (stats_empty_window 0 empty_store) as [_ Hzero].
  { by intros m ?%elem_of_nil. }
  destruct (Message.get_message_volume_stats 0 empty_store !! "00:00")
    as [v|] eqn:Hv; [|by vm_compute in Hv].
  by rewrite (Hzero _ _ Hv).
Defined.

(** X17.  A time and the time 24 hours earlier format to the same label, so
    the entry under the label of [now] itself holds the count of the oldest
    hour, the one that starts 24 hours before [now]. *)
Theorem stats_label_of_now (now : Z) (db : Store) :
  strftime_HM (now - timedelta_hours 24) = strftime_HM now
  ∧ Message.get_message_volume_stats now db !! strftime_HM now
    = Some (length (Message.created_between (now - timedelta_hours 24)
                      (now - timedelta_hours 23) db)).
Proof.
  split; [apply strftime_HM_day|].
  rewrite get_message_volume_stats_upto, <- strftime_HM_day.
  replace (now - timedelta_hours 24) with (bucket_start now 0)
    by (unfold bucket_start, timedelta_hours; lia).
  rewrite stats_upto_lookup by (done || lia). unfold bucket_count.
  do 3 f_equal. unfold bucket_start, timedelta_hours. lia.
Qed.

(** ** Participant: capacities at the edge *)

(** X18.  A room whose [max_participants] is 0 or less is full for
    everybody, whatever the table holds, and a room without participants
    and with a positive [max_participants] is full for nobody. *)
Theorem capacity_edges (db : Store) (self : Participant) :
  (max_participants (room self) ≤ 0 →
   Participant.validate_room_max_participants db self
   = Raise (ValidationError "Room full!"))
  ∧ (0 < max_participants (room self) →
     Room.participants db (room self) = [] →
     Participant.validate_room_max_participants db self = Ok tt).
Proof.
  split.
  - intros Hmax. apply validate_room_max_participants_raises.
    unfold queryset_count. lia.
  - intros Hmax Hempty. apply validate_room_max_participants_passes.
    rewrite Hempty. done.
Qed.

Lemma capacity_edges_witness :
  Participant.validate_room_max_participants group_store
    (mkParticipant 0 (mkRoom 3 alice 0 None None None (-1) false true) bob false 0)
  = Raise (ValidationError "Room full!")
  ∧ Participant.validate_room_max_participants empty_store
      (mkParticipant 0 direct_room bob false 0)
    = Ok tt.
Proof.
  split.
  - apply (capacity_edges group_store
             (mkParticipant 0 (mkRoom 3 alice 0 None None None (-1) false true)
                bob false 0)).
    simpl. lia.
  - apply (capacity_edges empty_store (mkParticipant 0 direct_room bob false 0));
      [simpl; lia | reflexivity].
Defined.

(** ** Room and Message: the creator may post *)

(** X19.  The membership that [auto_join_room] inserts for the creator
    passes [validate_admins_only] for every message posted with it, also in
    a room that is [admins_only]. *)
Theorem creator_may_post (now : Z) (db : Store) (r : Room) :
  memberships db (room_created_by r) = [] →
  ∃ p, Room.auto_join_room now db r = Ok (add_participant db p)
       ∧ p ∈ Room.participants (add_participant db p) r
       ∧ ∀ m, participant m = p → Message.validate_admins_only m = Ok tt.
Proof.
  intros Hnone. eexists. split; [by apply auto_join_room_fresh|]. split.
  - rewrite participants_add. simpl. rewrite decide_True by done.
    apply elem_of_app. right. by left.
  - intros m Hp. unfold Message.validate_admins_only. rewrite Hp. simpl.
    by rewrite andb_false_r.
Qed.

Lemma creator_may_post_witness :
  let r := mkRoom 4 bob 0 None (Some "news") None 50 true true in
  ∃ p, Room.auto_join_room 3 group_store r = Ok (add_participant group_store p)
       ∧ Message.validate_admins_only (mkMessage 1 3 (Some "hello") false None None p)
         = Ok tt.
Proof.
  intros r.
  destruct (creator_may_post 3 group_store r eq_refl) as (p & Hjoin & _ & Hpost).
  exists p. split; [exact Hjoin|]. by apply Hpost.
Defined.
